(** * gf: scalar math helpers ([gf/Math.h]) and [gf::SystemInfo]

    A shallow embedding of the function templates of [include/gf/Math.h]
    and of the four static members of [library/graphics/SystemInfo.cc].

    The templates of [Math.h] are generic in the scalar type [T]; the
    embedding is generic in the same way.  An instantiation of a template
    is a dictionary of the operators the template body applies to [T]
    (class [Arith]), together with the members of [std::numeric_limits<T>]
    and [std::abs] where the body uses them (class [Limits]).  Four
    instantiations are given:

    - [Z_arith]: a signed integer type in the absence of overflow;
    - [uint_arith w]: a [w]-bit unsigned integer type that integer
      promotion leaves as it is ([unsigned int] and wider), every
      operation reduced modulo [2^w];
    - [R_arith]: exact real arithmetic;
    - [IEEE prec emax]: a binary IEEE 754 format, round to nearest even
      ([float] is [IEEE 24 128], [double] is [IEEE 53 1024]), on the
      executable specification [SpecFloat] of the standard library.

    [SystemInfo] calls the SDL library; its members are interaction trees
    over the four SDL calls, so that the calls a member makes are part of
    its meaning. *)

From Stdlib Require Import ZArith Bool Lia List String Ascii.
From Stdlib Require Import SpecFloat.
From Stdlib Require Import Reals Lra Ring.
From ITree Require Import ITree ITreeFacts Events.State Events.StateFacts.

Local Open Scope Z_scope.

(** ** Literals and the operators of a scalar type *)

(** The source applies the functional cast [T(x)] to integer literals
    ([T(0)], [T(2)], [T(180)], ...) and to two decimal literals ([T(0.5)]
    and the 46-digit literal of [pi<T>()]).  [DecLit n k] is the decimal
    literal of value [n / 10^k]. *)
Inductive literal : Type :=
| IntLit (z : Z)
| DecLit (n : positive) (k : nat).

(** Value of a literal as a fraction [numerator / denominator]. *)
Definition literal_num (l : literal) : Z :=
  match l with IntLit z => z | DecLit n _ => Zpos n end.

Definition literal_den (l : literal) : Z :=
  match l with IntLit _ => 1 | DecLit _ k => 10 ^ Z.of_nat k end.

(** The operators the template bodies apply to values of type [T].
    [ltb] is [operator<] and [eqb] is [operator==]; [a > b] is [ltb b a]. *)
Class Arith (T : Type) : Type := {
  cast : literal -> T;
  add : T -> T -> T;
  sub : T -> T -> T;
  mul : T -> T -> T;
  div : T -> T -> T;
  neg : T -> T;
  ltb : T -> T -> bool;
  eqb : T -> T -> bool
}.

(** [std::abs] and the members of [std::numeric_limits<T>] used by
    [almostEquals]. *)
Class Limits (T : Type) : Type := {
  std_abs : T -> T;
  numeric_limits_epsilon : T;
  numeric_limits_denorm_min : T;
  numeric_limits_max : T
}.

Declare Scope gf_scope.
Delimit Scope gf_scope with gf.
Infix "+" := add : gf_scope.
Infix "-" := sub : gf_scope.
Infix "*" := mul : gf_scope.
Infix "/" := div : gf_scope.
Notation "- x" := (neg x) : gf_scope.
Infix "<" := ltb : gf_scope.
Notation "a > b" := (ltb b a) : gf_scope.
Infix "==" := eqb (at level 70, no associativity) : gf_scope.

(** ** The function templates of [gf/Math.h] *)

Section Math.
Context {T : Type} {A : Arith T}.
Local Open Scope gf_scope.

(** [T(n)] for an integer literal [n]. *)
Definition T_ (n : Z) : T := cast (IntLit n).

(** [pi<T>()]. *)
Definition pi : T :=
  cast (DecLit 3141592653589793238462643383279502884197169399 45).

(** [almostEquals(a, b, epsilon)]. *)
Definition almostEquals {L : Limits T} (a b epsilon : T) : bool :=
  if a == b then true
  else
    let diff := std_abs (a - b) in
    if (a == T_ 0) || (b == T_ 0) || (diff < numeric_limits_denorm_min) then
      diff < (epsilon * numeric_limits_denorm_min)
    else
      let sum := std_abs a + std_abs b in
      let sum := if sum < numeric_limits_max then sum else numeric_limits_max in
      (diff / sum) < epsilon.

(** [almostEquals(a, b)], the third parameter taking its default
    [std::numeric_limits<T>::epsilon()]. *)
Definition almostEquals_default {L : Limits T} (a b : T) : bool :=
  almostEquals a b numeric_limits_epsilon.

Definition degreesToRadians (degrees : T) : T :=
  degrees * pi / T_ 180.

Definition radiansToDegrees (radians : T) : T :=
  radians * T_ 180 / pi.

(** [Step<T>], a pointer to a function from [T] to [T]. *)
Definition Step : Type := T -> T.

Definition linearStep (t : T) : T := t.

Definition cubicStep (t : T) : T :=
  (- T_ 2 * t + T_ 3) * t * t.

Definition quinticStep (t : T) : T :=
  ((T_ 6 * t - T_ 15) * t + T_ 10) * t * t * t.

(** [cosineStep] calls [std::cos], which belongs to the C library and
    not to this repository: it is a parameter of the embedding. *)
Definition cosineStep (std_cos : T -> T) (t : T) : T :=
  (T_ 1 - std_cos (pi * t)) * cast (DecLit 5 1).

(** [lerp(lhs, rhs, t)], for the instantiations in which the type [U]
    of the parameter [t] is the type [T] of the two values, so that the
    outer cast [T(...)] converts nothing. *)
Definition lerp (lhs rhs t : T) : T :=
  (T_ 1 - t) * lhs + t * rhs.

Definition clamp (val lo hi : T) : T :=
  if val < lo then lo else (if val > hi then hi else val).

Definition square (val : T) : T := val * val.

Definition cube (val : T) : T := val * val * val.

(** [sign] returns an [int]: the difference of two [bool]s promoted to
    [int]. *)
Definition sign (val : T) : Z :=
  (Z.b2z (val > T_ 0)%gf - Z.b2z (val < T_ 0)%gf)%Z.

Definition absdiff (lhs rhs : T) : T :=
  if lhs > rhs then lhs - rhs else rhs - lhs.

End Math.

(** ** Instantiations *)

(** *** Integers without overflow

    Conversion of a decimal literal to an integer type truncates, and
    integer division truncates towards zero. *)
#[local] Instance Z_arith : Arith Z := {
  cast l := Z.quot (literal_num l) (literal_den l);
  add := Z.add;
  sub := Z.sub;
  mul := Z.mul;
  div := Z.quot;
  neg := Z.opp;
  ltb := Z.ltb;
  eqb := Z.eqb
}.

(** *** [w]-bit unsigned integers

    A value is an integer of the interval from [0] to [2^w - 1]; the
    result of every operation is reduced modulo [2^w].  This is the
    arithmetic of [unsigned int] and of the wider unsigned types.  The
    operands of a narrower unsigned type ([unsigned char],
    [unsigned short]) are promoted to [int]: an expression is then
    evaluated on the integers and reduced modulo [2^w] only when its
    value is converted to [T].  For expressions made of [+], [-] and [*]
    the two give the same value of [T]; for an expression that divides
    the result of another operation they do not, and such an expression
    at a narrow type is outside this instantiation. *)
Definition wrap (w : Z) (z : Z) : Z := z mod 2 ^ w.

Definition uint_arith (w : Z) : Arith Z := {|
  cast l := wrap w (Z.quot (literal_num l) (literal_den l));
  add a b := wrap w (a + b);
  sub a b := wrap w (a - b);
  mul a b := wrap w (a * b);
  div a b := wrap w (Z.quot a b);
  neg a := wrap w (- a);
  ltb := Z.ltb;
  eqb := Z.eqb
|}.

(** *** Binary IEEE 754 formats *)

(** Conversion of a literal rounds its exact value to the nearest value of
    the format, ties to even: [binary_normalize] rounds an integer, and
    [SFdiv] applied to the numerator and to the denominator, each taken
    as an integer with exponent zero, rounds their exact quotient. *)
Definition IEEE_cast (prec emax : Z) (l : literal) : spec_float :=
  match l with
  | IntLit z => binary_normalize prec emax z 0 false
  | DecLit n k =>
      SFdiv prec emax (S754_finite false n 0)
        (S754_finite false (Z.to_pos (10 ^ Z.of_nat k)) 0)
  end.

Definition IEEE (prec emax : Z) : Arith spec_float := {|
  cast := IEEE_cast prec emax;
  add := SFadd prec emax;
  sub := SFsub prec emax;
  mul := SFmul prec emax;
  div := SFdiv prec emax;
  neg := SFopp;
  ltb := SFltb;
  eqb := SFeqb
|}.

(** [epsilon()] is [2^(1-prec)], the gap between [1] and the next value;
    [denorm_min()] is [2^emin], the least positive value; [max()] is the
    greatest finite value. *)
Definition IEEE_limits (prec emax : Z) : Limits spec_float := {|
  std_abs := SFabs;
  numeric_limits_epsilon := binary_normalize prec emax 1 (1 - prec) false;
  numeric_limits_denorm_min := S754_finite false 1 (emin prec emax);
  numeric_limits_max := SFmax_float prec emax
|}.

(** [float] and [double]. *)
Definition binary32 : Arith spec_float := IEEE 24 128.
Definition binary64 : Arith spec_float := IEEE 53 1024.
Definition binary32_limits : Limits spec_float := IEEE_limits 24 128.
Definition binary64_limits : Limits spec_float := IEEE_limits 53 1024.

(** The [float] constants of the header. *)
Definition Pi : spec_float := pi (A := binary32).
Definition Pi2 : spec_float := div (Arith := binary32) Pi (T_ (A := binary32) 2).
Definition Pi3 : spec_float := div (Arith := binary32) Pi (T_ (A := binary32) 3).
Definition Pi4 : spec_float := div (Arith := binary32) Pi (T_ (A := binary32) 4).
Definition Pi6 : spec_float := div (Arith := binary32) Pi (T_ (A := binary32) 6).
Definition Sqrt2 : spec_float :=
  cast (Arith := binary32) (DecLit 141421356237309504880 20).
Definition InvSqrt2 : spec_float :=
  div (Arith := binary32) (T_ (A := binary32) 1) Sqrt2.
Definition Sqrt3 : spec_float :=
  cast (Arith := binary32) (DecLit 17320508075688772935 19).
Definition Epsilon : spec_float :=
  numeric_limits_epsilon (Limits := binary32_limits).

(** [std::abs] and [std::numeric_limits<T>] for a [w]-bit signed integer
    type: [epsilon()] and [denorm_min()] are [0] for an integer type. *)
Definition int_limits (w : Z) : Limits Z := {|
  std_abs := Z.abs;
  numeric_limits_epsilon := 0;
  numeric_limits_denorm_min := 0;
  numeric_limits_max := 2 ^ (w - 1) - 1
|}.

(** *** Exact real arithmetic *)
Definition R_arith : Arith R := {|
  cast l :=
    match l with
    | IntLit z => IZR z
    | DecLit n k => (IZR (Zpos n) / IZR (10 ^ Z.of_nat k))%R
    end;
  add := Rplus;
  sub := Rminus;
  mul := Rmult;
  div := Rdiv;
  neg := Ropp;
  ltb a b := if Rlt_dec a b then true else false;
  eqb a b := if Req_dec_T a b then true else false
|}.

(** ** Vocabulary of the statements *)

Definition is_nan (x : spec_float) : bool :=
  match x with S754_nan => true | _ => false end.

Definition is_finite (x : spec_float) : bool :=
  match x with S754_zero _ | S754_finite _ _ _ => true | _ => false end.

Definition is_zero (x : spec_float) : bool :=
  match x with S754_zero _ => true | _ => false end.

(** [t^n], by repeated multiplication. *)
Fixpoint power {T : Type} {A : Arith T} (t : T) (n : nat) : T :=
  match n with
  | O => T_ 1
  | S n' => mul t (power t n')
  end.

(** The two polynomials of the specification,
    [-2 t^3 + 3 t^2] and [6 t^5 - 15 t^4 + 10 t^3]. *)
Definition cubic_polynomial {T : Type} {A : Arith T} (t : T) : T :=
  (- T_ 2 * power t 3 + T_ 3 * power t 2)%gf.

Definition quintic_polynomial {T : Type} {A : Arith T} (t : T) : T :=
  (T_ 6 * power t 5 - T_ 15 * power t 4 + T_ 10 * power t 3)%gf.

(** [std::min(x, y)], which is [(y < x) ? y : x]. *)
Definition std_min {T : Type} {A : Arith T} (x y : T) : T :=
  if ltb y x then y else x.

(** The body of [almostEquals] as the specification words it, with the
    minimum it names left as a parameter. *)
Definition almostEquals_cases
    {T : Type} {A : Arith T} {L : Limits T}
    (min : T -> T -> T) (a b epsilon : T) : bool :=
  if eqb a b then true
  else
    let diff := std_abs (sub a b) in
    if eqb a (T_ 0) || eqb b (T_ 0) || ltb diff numeric_limits_denorm_min
    then ltb diff (mul epsilon numeric_limits_denorm_min)
    else ltb (div diff (min (add (std_abs a) (std_abs b)) numeric_limits_max))
           epsilon.

(** The divisor of the one division of [almostEquals]. *)
Definition almostEquals_divisor
    {T : Type} {A : Arith T} {L : Limits T} (a b : T) : T :=
  let sum := add (std_abs a) (std_abs b) in
  if ltb sum numeric_limits_max then sum else numeric_limits_max.

(** The minimum of two values of an IEEE format that skips a NaN
    ([std::fmin]). *)
Definition SFfmin (x y : spec_float) : spec_float :=
  match SFcompare x y with
  | Some Lt => x
  | Some _ => y
  | None => if is_nan x then y else x
  end.

(** Two values of an IEEE format are the same up to the sign of a zero. *)
Definition SFsame (x y : spec_float) : Prop :=
  x = y \/ (is_zero x = true /\ is_zero y = true).

(** The finite value of sign [s], mantissa [m] and exponent [e], as an
    integer multiple of [2^ez], for [ez <= e]. *)
Definition scaled (s : bool) (m : positive) (e ez : Z) : Z :=
  cond_Zopp s (Zpos m * 2 ^ (e - ez)).

(** [lo <= x <= hi] on values of an IEEE format. *)
Definition SFbetween (lo hi x : spec_float) : bool :=
  SFleb lo x && SFleb x hi.

(** [x] and [y] are approximately equal: [almostEquals] with its default
    tolerance answers [true]. *)
Definition approx (prec emax : Z) (x y : spec_float) : Prop :=
  almostEquals_default (A := IEEE prec emax) (L := IEEE_limits prec emax) x y
  = true.

(** The mantissa of [1] in a format of precision [prec]: [2^(prec-1)]. *)
Definition one_mantissa (prec : Z) : positive :=
  Pos.iter xO 1%positive (Z.to_pos (prec - 1)).

(** The value of the format next to [-1] towards zero, [-(1 - 2^-prec)]. *)
Definition minus_one_up (prec : Z) : spec_float :=
  S754_finite true (Z.to_pos (2 ^ prec - 1)) (- prec).

(** What the endpoints of [cosineStep] ask of [std::cos].  At [+0] the
    cosine is [1] (C standard, annex F: [cos(+-0)] returns [1]).  The
    exact cosine of the value [pi<T>()] of the format lies strictly between
    [-1] and the next value of the format towards zero (lemmas
    [cos_pi_binary32] and [cos_pi_binary64]); a [std::cos] whose error is
    below one unit in the last place returns one of the two (lemma
    [below_ulp_faithful]). *)
Definition cos_faithful_at_endpoints
    (prec emax : Z) (std_cos : spec_float -> spec_float) : Prop :=
  std_cos (S754_zero false) = T_ (A := IEEE prec emax) 1 /\
  (std_cos (pi (A := IEEE prec emax)) = SFopp (T_ (A := IEEE prec emax) 1) \/
   std_cos (pi (A := IEEE prec emax)) = minus_one_up prec).

(** The real number a value of an IEEE format stands for (zero for the
    infinities and NaN, which stand for none). *)
Definition SF2R (x : spec_float) : R :=
  match x with
  | S754_finite s m e => (IZR (cond_Zopp s (Zpos m)) * powerRZ 2 e)%R
  | _ => 0%R
  end.

(** [std::cos] in terms of the cosine of the reals: at the two arguments
    that the endpoints of [cosineStep] pass it, it returns a finite value
    of the format whose distance to the exact cosine is below [2^-prec],
    the gap between two values of the format just below [1]. *)
Definition cos_error_below_ulp
    (prec emax : Z) (std_cos : spec_float -> spec_float) : Prop :=
  forall x : spec_float,
    x = S754_zero false \/ x = pi (A := IEEE prec emax) ->
    is_finite (std_cos x) = true /\
    valid_binary prec emax (std_cos x) = true /\
    (Rabs (SF2R (std_cos x) - cos (SF2R x)) < powerRZ 2 (- prec))%R.

(** A function of an IEEE format is a step up to the tolerance of
    [almostEquals]: its value at [0] is approximately [0] and its value at
    [1] approximately [1]. *)
Definition step_endpoints_approx
    (prec emax : Z) (f : spec_float -> spec_float) : Prop :=
  approx prec emax (f (T_ (A := IEEE prec emax) 0)) (T_ (A := IEEE prec emax) 0)
  /\
  approx prec emax (f (T_ (A := IEEE prec emax) 1)) (T_ (A := IEEE prec emax) 1).

(** The same with equality in place of the tolerance. *)
Definition step_endpoints_exact
    {T : Type} {A : Arith T} (f : T -> T) : Prop :=
  f (T_ 0) = T_ 0 /\ f (T_ 1) = T_ 1.

(** A [std::cos] answering [1] at the zeros and [-1] elsewhere: enough
    of a cosine for the two endpoints. *)
Definition endpoint_cos (prec emax : Z) (x : spec_float) : spec_float :=
  if is_zero x then T_ (A := IEEE prec emax) 1
  else SFopp (T_ (A := IEEE prec emax) 1).

(** ** [gf::SystemInfo] *)

(** The four functions of the SDL library that [SystemInfo.cc] calls, as
    events: a call is answered by the library with a value of the result
    type.  [SDL_GetPlatform] answers a [const char*]: the characters the
    pointer addresses; the C string is their prefix before the first null
    character.  The other three answer an [int]. *)
Variant SDL : Type -> Type :=
| SDL_GetPlatform : SDL (list ascii)
| SDL_GetCPUCacheLineSize : SDL Z
| SDL_GetCPUCount : SDL Z
| SDL_GetSystemRAM : SDL Z.

(** The constructor of [std::string] from a pointer to characters: the
    characters before the first null. *)
Fixpoint std_string (p : list ascii) : string :=
  match p with
  | nil => EmptyString
  | c :: q =>
      if Ascii.eqb c zero then EmptyString else String c (std_string q)
  end.

Module SystemInfo.
Import ITreeNotations.
Local Open Scope itree_scope.

Definition getPlatformName : itree SDL string :=
  p <- trigger SDL_GetPlatform ;; Ret (std_string p).

Definition getCpuCacheLineSize : itree SDL Z :=
  n <- trigger SDL_GetCPUCacheLineSize ;; Ret n.

Definition getCpuCount : itree SDL Z :=
  n <- trigger SDL_GetCPUCount ;; Ret n.

Definition getSystemRamSize : itree SDL Z :=
  n <- trigger SDL_GetSystemRAM ;; Ret n.

End SystemInfo.

(** An implementation of the SDL library: a handler of the four calls
    over a machine state [S] (the hardware and the operating system the
    library queries). *)
Definition SDL_impl (S : Type) : Type :=
  forall R : Type, SDL R -> S -> S * R.

(** The run of a program over SDL against an implementation. *)
Definition SDL_handler {S : Type} (impl : SDL_impl S) :
    forall R : Type, SDL R -> Monads.stateT S (itree void1) R :=
  fun R e s => Ret (impl R e s).

Definition run {S R : Type} (impl : SDL_impl S) (t : itree SDL R) (s : S) :
    itree void1 (S * R) :=
  interp_state (SDL_handler impl) t s.

(** ** Tactics *)

(** Exposes the [SpecFloat] operations behind the operators of an IEEE
    instantiation, and nothing else. *)
Ltac ieee_ops :=
  cbn [add sub mul div neg ltb eqb cast IEEE std_abs numeric_limits_epsilon
       numeric_limits_denorm_min numeric_limits_max IEEE_limits].

(** ** Vocabulary of the further properties *)

(** The sign bit of a value of an IEEE format, taken as clear for NaN. *)
Definition sign_bit (x : spec_float) : bool :=
  match x with
  | S754_zero s | S754_infinity s | S754_finite s _ _ => s
  | S754_nan => false
  end.

(** A string has no null character. *)
Fixpoint no_null (s : string) : bool :=
  match s with
  | EmptyString => true
  | String c s' => negb (Ascii.eqb c zero) && no_null s'
  end.

(** * Properties *)

(** ** The constants of the two formats, mantissa and exponent written out *)

Example pi_binary32 :
  pi (A := binary32) = S754_finite false 13176795 (-22).
Proof. vm_compute. reflexivity. Qed.

Example pi_binary64 :
  pi (A := binary64) = S754_finite false 7074237752028440 (-51).
Proof. vm_compute. reflexivity. Qed.

(** The literal of [pi<T>()] has type [long double]; on x86 it is first
    rounded to the 64-bit mantissa of the extended format and then to
    [T].  The two roundings give the value that one rounding gives. *)
Example pi_long_double :
  let ld := pi (A := IEEE 64 16384) in
  ld = S754_finite false 14488038916154245685 (-62) /\
  binary_normalize 24 128 14488038916154245685 (-62) false = pi (A := binary32) /\
  binary_normalize 53 1024 14488038916154245685 (-62) false = pi (A := binary64).
Proof. vm_compute. repeat split. Qed.

Example epsilon_binary32 :
  Epsilon = S754_finite false 8388608 (-46).
Proof. vm_compute. reflexivity. Qed.

Example denorm_min_binary32 :
  numeric_limits_denorm_min (Limits := binary32_limits)
  = S754_finite false 1 (-149).
Proof. vm_compute. reflexivity. Qed.

Example max_binary32 :
  numeric_limits_max (Limits := binary32_limits)
  = S754_finite false 16777215 104.
Proof. vm_compute. reflexivity. Qed.

Example one_half_binary32 :
  T_ (A := binary32) 1 = S754_finite false 8388608 (-23) /\
  cast (Arith := binary32) (DecLit 5 1) = S754_finite false 8388608 (-24).
Proof. vm_compute. split; reflexivity. Qed.

(** [square] and [cube] on the test values of the specification. *)
Example square_cube_values :
  square (A := Z_arith) 4 = 16 /\ cube (A := Z_arith) 3 = 27 /\
  square (A := binary32) (T_ (A := binary32) 4) = T_ (A := binary32) 16 /\
  cube (A := binary32) (T_ (A := binary32) 3) = T_ (A := binary32) 27.
Proof. vm_compute. repeat split. Qed.

(** * Facts on [SpecFloat] *)

(** ** Order and NaN *)

(** A comparison is unordered exactly when an operand is NaN. *)
Lemma SFcompare_None (x y : spec_float) :
  SFcompare x y = None <-> is_nan x = true \/ is_nan y = true.
Proof.
  destruct x as [sx|sx| |sx mx ex], y as [sy|sy| |sy my ey]; simpl;
    split; intros H; try discriminate; auto;
    destruct H as [H|H]; discriminate.
Qed.

Lemma SFcompare_swap (x y : spec_float) :
  SFcompare y x = option_map CompOpp (SFcompare x y).
Proof.
  destruct x as [sx|sx| |sx mx ex], y as [sy|sy| |sy my ey]; simpl;
    try reflexivity;
    try (destruct sx; reflexivity);
    try (destruct sy; reflexivity);
    try (destruct sx, sy; reflexivity).
  destruct sx, sy; try reflexivity;
    rewrite (Z.compare_antisym ex ey);
    destruct (Z.compare ex ey); simpl; try reflexivity;
    rewrite (Pos.compare_cont_antisym mx my Eq); simpl;
    try rewrite CompOpp_involutive; reflexivity.
Qed.

Lemma SFcompare_refl (x : spec_float) :
  is_nan x = false -> SFcompare x x = Some Eq.
Proof.
  destruct x as [s|s| |s m e]; simpl; intros H; try discriminate;
    try reflexivity.
  - destruct s; reflexivity.
  - destruct s; rewrite Z.compare_refl, Pos.compare_cont_refl; reflexivity.
Qed.

Lemma SFleb_refl (x : spec_float) : is_nan x = false -> SFleb x x = true.
Proof. intros H. unfold SFleb. rewrite SFcompare_refl; auto. Qed.

Lemma SFleb_not_nan (x y : spec_float) :
  SFleb x y = true -> is_nan x = false /\ is_nan y = false.
Proof.
  unfold SFleb.
  destruct x as [sx|sx| |sx mx ex], y as [sy|sy| |sy my ey]; simpl;
    intros H; try discriminate; auto.
Qed.

(** On operands that are not NaN, [not (x < y)] is [y <= x]. *)
Lemma SFltb_false_SFleb (x y : spec_float) :
  is_nan x = false -> is_nan y = false ->
  SFltb x y = false -> SFleb y x = true.
Proof.
  intros Hx Hy. unfold SFltb, SFleb. rewrite (SFcompare_swap x y).
  destruct (SFcompare x y) as [[ | | ]|] eqn:E; simpl; try discriminate; auto.
  apply SFcompare_None in E. destruct E; congruence.
Qed.

(** [x <= y] and [y < z] give [x < z]. *)
Lemma SFleb_SFltb_trans (x y z : spec_float) :
  SFleb x y = true -> SFltb y z = true -> SFltb x z = true.
Proof.
  unfold SFleb, SFltb.
  destruct x as [sx|sx| |sx mx ex], y as [sy|sy| |sy my ey],
    z as [sz|sz| |sz mz ez]; simpl;
    try discriminate; try reflexivity;
    try (destruct sx; simpl; try discriminate; try reflexivity);
    try (destruct sy; simpl; try discriminate; try reflexivity);
    try (destruct sz; simpl; try discriminate; try reflexivity);
    auto;
    change (Pos.compare_cont Eq) with Pos.compare;
    destruct (Z.compare_spec ex ey), (Z.compare_spec ey ez),
      (Z.compare_spec ex ez); try lia; simpl; try discriminate; auto;
    destruct (Pos.compare_spec mx my), (Pos.compare_spec my mz),
      (Pos.compare_spec mx mz); try lia; simpl; try discriminate; auto.
Qed.

(** [x < y] excludes [y < x]. *)
Lemma SFltb_asym (x y : spec_float) :
  SFltb x y = true -> SFltb y x = false.
Proof.
  unfold SFltb. rewrite (SFcompare_swap x y).
  destruct (SFcompare x y) as [[ | | ]|]; simpl; try discriminate; auto.
Qed.

(** Equality with a finite value, as [SFcompare] decides it, is equality
    of sign, mantissa and exponent. *)
Lemma SFcompare_Eq_finite (x : spec_float) (s : bool) (m : positive) (e : Z) :
  SFcompare x (S754_finite s m e) = Some Eq -> x = S754_finite s m e.
Proof.
  destruct x as [sx|sx| |sx mx ex]; simpl; try discriminate;
    try (destruct sx; discriminate); try (destruct s; discriminate).
  change (Pos.compare_cont Eq) with Pos.compare.
  destruct sx, s; try discriminate;
    destruct (Z.compare_spec ex e); try discriminate;
    destruct (Pos.compare_spec mx m); try discriminate;
    intros _; subst; reflexivity.
Qed.

Lemma SFltb_nan_r (x : spec_float) : SFltb x S754_nan = false.
Proof. destruct x; reflexivity. Qed.

Lemma SFeqb_nan_r (x : spec_float) : SFeqb x S754_nan = false.
Proof. destruct x; reflexivity. Qed.

(** NaN is absorbing for the four arithmetic operations. *)
Section NaNPropagation.
Variables prec emax : Z.

Lemma SFadd_nan_r x : SFadd prec emax x S754_nan = S754_nan.
Proof. destruct x; reflexivity. Qed.

Lemma SFsub_nan_r x : SFsub prec emax x S754_nan = S754_nan.
Proof. destruct x; reflexivity. Qed.

Lemma SFmul_nan_r x : SFmul prec emax x S754_nan = S754_nan.
Proof. destruct x; reflexivity. Qed.

Lemma SFdiv_nan_r x : SFdiv prec emax x S754_nan = S754_nan.
Proof. destruct x; reflexivity. Qed.
End NaNPropagation.

(** [T(0)] is [+0] in every format. *)
Lemma IEEE_zero (prec emax : Z) : T_ (A := IEEE prec emax) 0 = S754_zero false.
Proof. reflexivity. Qed.

(** ** Rounding never invents a NaN *)

Section RoundNotNaN.
Variables prec emax : Z.

Lemma shr_1_nonneg (mrs : shr_record) :
  0 <= shr_m mrs -> 0 <= shr_m (shr_1 mrs).
Proof.
  destruct mrs as [m r s]. simpl.
  destruct m as [|[p|p|]|p]; simpl; lia.
Qed.

Lemma iter_pos_shr_1_nonneg (n : positive) (mrs : shr_record) :
  0 <= shr_m mrs -> 0 <= shr_m (SpecFloat.iter_pos shr_1 n mrs).
Proof.
  revert mrs. induction n as [n IH|n IH|]; intros mrs H; simpl.
  - apply IH, IH, shr_1_nonneg, H.
  - apply IH, IH, H.
  - apply shr_1_nonneg, H.
Qed.

Lemma shr_fexp_nonneg (m e : Z) (l : location) :
  0 <= m -> 0 <= shr_m (fst (shr_fexp prec emax m e l)).
Proof.
  intros Hm. unfold shr_fexp, shr.
  assert (H0 : 0 <= shr_m (shr_record_of_loc m l))
    by (destruct l as [|[ | | ]]; exact Hm).
  destruct (fexp prec emax (Zdigits2 m + e) - e); simpl; auto.
  apply iter_pos_shr_1_nonneg, H0.
Qed.

Lemma round_nearest_even_nonneg (m : Z) (l : location) :
  0 <= m -> 0 <= round_nearest_even m l.
Proof.
  intros Hm. destruct l as [|[ | | ]]; simpl; try lia.
  destruct (Z.even m); lia.
Qed.

Lemma binary_round_aux_not_nan (s : bool) (m e : Z) (l : location) :
  0 <= m -> is_nan (binary_round_aux prec emax s m e l) = false.
Proof.
  intros Hm. unfold binary_round_aux.
  pose proof (shr_fexp_nonneg m e l Hm) as H1.
  destruct (shr_fexp prec emax m e l) as [mrs' e']. simpl in H1.
  pose proof (shr_fexp_nonneg _ e' loc_Exact
                (round_nearest_even_nonneg _ (loc_of_shr_record mrs') H1))
    as H2.
  destruct (shr_fexp prec emax _ e' loc_Exact) as [mrs'' e'']. simpl in H2.
  destruct (shr_m mrs'') as [|p|p]; try reflexivity.
  - destruct (e'' <=? emax - prec); reflexivity.
  - lia.
Qed.

Lemma binary_normalize_not_nan (m e : Z) (szero : bool) :
  is_nan (binary_normalize prec emax m e szero) = false.
Proof.
  destruct m as [|p|p]; simpl; try reflexivity;
    unfold binary_round;
    destruct (shl_align _ _ _) as [mz ez];
    apply binary_round_aux_not_nan; lia.
Qed.

(** The sum of two absolute values is NaN only if one of them is. *)
Lemma SFadd_abs_nan (a b : spec_float) :
  is_nan (SFadd prec emax (SFabs a) (SFabs b)) = true ->
  is_nan a = true \/ is_nan b = true.
Proof.
  destruct a as [sa|sa| |sa ma ea], b as [sb|sb| |sb mb eb];
    cbn [SFabs SFadd is_nan]; auto; try discriminate.
  rewrite binary_normalize_not_nan. discriminate.
Qed.
End RoundNotNaN.

(** ** Mantissas, shifts and exact roundings *)

(** The mantissa of a value has as many bits as [digits2_pos] says. *)
Lemma digits2_pos_bounds (m : positive) :
  2 ^ (Zpos (digits2_pos m) - 1) <= Zpos m < 2 ^ Zpos (digits2_pos m).
Proof.
  induction m as [m IH|m IH|]; cbn [digits2_pos].
  - rewrite Pos2Z.inj_succ.
    replace (Z.succ (Zpos (digits2_pos m)) - 1)
      with (Z.succ (Zpos (digits2_pos m) - 1)) by lia.
    rewrite !Z.pow_succ_r by lia. lia.
  - rewrite Pos2Z.inj_succ.
    replace (Z.succ (Zpos (digits2_pos m)) - 1)
      with (Z.succ (Zpos (digits2_pos m) - 1)) by lia.
    rewrite !Z.pow_succ_r by lia. lia.
  - simpl. lia.
Qed.

(** [SpecFloat.iter_pos] is [Pos.iter]. *)
Lemma iter_pos_Pos_iter {A : Type} (f : A -> A) (n : positive) (x : A) :
  SpecFloat.iter_pos f n x = Pos.iter f x n.
Proof.
  revert x. induction n as [n IH|n IH|]; intros x; simpl.
  - rewrite !IH. rewrite <- !Pos.iter_swap. reflexivity.
  - rewrite !IH. reflexivity.
  - reflexivity.
Qed.

(** Shifting left by [k] bits and then right by [k] bits loses nothing. *)
Lemma shr_shl_exact (k m : positive) :
  SpecFloat.iter_pos shr_1 k
    {| shr_m := Zpos (Pos.iter xO m k); shr_r := false; shr_s := false |}
  = {| shr_m := Zpos m; shr_r := false; shr_s := false |}.
Proof.
  rewrite iter_pos_Pos_iter.
  induction k as [|k IH] using Pos.peano_ind.
  - reflexivity.
  - rewrite Pos.iter_succ_r. rewrite Pos.iter_succ. simpl shr_1. exact IH.
Qed.

Lemma digits2_pos_shl (k m : positive) :
  digits2_pos (Pos.iter xO m k) = (digits2_pos m + k)%positive.
Proof.
  induction k as [|k IH] using Pos.peano_ind.
  - simpl. lia.
  - rewrite Pos.iter_succ. simpl. rewrite IH. lia.
Qed.

Lemma mul_shl_one (k m : positive) :
  (Pos.iter xO 1 k * m)%positive = Pos.iter xO m k.
Proof.
  induction k as [|k IH] using Pos.peano_ind.
  - reflexivity.
  - rewrite !Pos.iter_succ. simpl. rewrite IH. reflexivity.
Qed.

Lemma shl_value (m k : positive) :
  Zpos (Pos.iter xO m k) = Zpos m * 2 ^ Zpos k.
Proof.
  induction k as [|k IH] using Pos.peano_ind.
  - simpl. lia.
  - rewrite Pos.iter_succ, Pos2Z.inj_succ, Z.pow_succ_r by lia.
    rewrite Pos2Z.inj_xO, IH. ring.
Qed.

(** Aligning a mantissa on a lower exponent multiplies it by the power of
    two between the exponents. *)
Lemma shl_align_value (m : positive) (e e' : Z) :
  e' <= e -> Zpos (fst (shl_align m e e')) = Zpos m * 2 ^ (e - e').
Proof.
  intros H. unfold shl_align.
  destruct (e' - e) as [|d|d] eqn:E.
  - replace (e - e') with 0 by lia. cbn [fst]. lia.
  - lia.
  - cbn [fst]. rewrite shl_value. f_equal. f_equal. lia.
Qed.

Section RoundExact.
Variables prec emax : Z.
Hypothesis Hprec : 2 <= prec.
Hypothesis Hemax : 2 <= emax.
Local Abbreviation F := (IEEE prec emax).

(** Rounding the mantissa and exponent of a value of the format gives
    that value. *)
Lemma shr_fexp_bounded (m : positive) (e : Z) :
  SpecFloat.bounded prec emax m e = true ->
  shr_fexp prec emax (Zpos m) e loc_Exact
  = ({| shr_m := Zpos m; shr_r := false; shr_s := false |}, e).
Proof.
  unfold SpecFloat.bounded, canonical_mantissa. intros H.
  apply andb_prop in H. destruct H as [Hc _]. apply Z.eqb_eq in Hc.
  unfold shr_fexp. cbn [Zdigits2 shr_record_of_loc].
  rewrite Hc, Z.sub_diag. reflexivity.
Qed.

Lemma binary_round_aux_bounded (s : bool) (m : positive) (e : Z) :
  SpecFloat.bounded prec emax m e = true ->
  binary_round_aux prec emax s (Zpos m) e loc_Exact = S754_finite s m e.
Proof.
  intros H. unfold binary_round_aux.
  rewrite (shr_fexp_bounded m e H).
  cbn [shr_m loc_of_shr_record round_nearest_even].
  rewrite (shr_fexp_bounded m e H). cbn [shr_m].
  unfold SpecFloat.bounded in H. apply andb_prop in H.
  destruct H as [_ He]. rewrite He. reflexivity.
Qed.

(** The same mantissa shifted left by [k] bits, with the exponent lowered
    by [k], rounds to the same value. *)
Lemma binary_round_aux_shl (s : bool) (m : positive) (e : Z) (k : positive) :
  SpecFloat.bounded prec emax m e = true ->
  binary_round_aux prec emax s (Zpos (Pos.iter xO m k)) (e - Zpos k) loc_Exact
  = S754_finite s m e.
Proof.
  intros H. unfold binary_round_aux.
  assert (H1 : shr_fexp prec emax (Zpos (Pos.iter xO m k)) (e - Zpos k)
                 loc_Exact
               = ({| shr_m := Zpos m; shr_r := false; shr_s := false |}, e)).
  { pose proof H as Hb.
    unfold SpecFloat.bounded, canonical_mantissa in Hb.
    apply andb_prop in Hb. destruct Hb as [Hc _]. apply Z.eqb_eq in Hc.
    unfold shr_fexp. cbn [Zdigits2 shr_record_of_loc].
    rewrite digits2_pos_shl.
    replace (Zpos (digits2_pos m + k) + (e - Zpos k))
      with (Zpos (digits2_pos m) + e) by lia.
    rewrite Hc.
    replace (e - (e - Zpos k)) with (Zpos k) by lia.
    unfold shr. rewrite shr_shl_exact. f_equal. lia. }
  rewrite H1. cbn [shr_m loc_of_shr_record round_nearest_even].
  rewrite (shr_fexp_bounded m e H). cbn [shr_m].
  unfold SpecFloat.bounded in H. apply andb_prop in H.
  destruct H as [_ He]. rewrite He. reflexivity.
Qed.

(** [T(1)], mantissa and exponent written out. *)
Lemma one_bounded : SpecFloat.bounded prec emax (one_mantissa prec) (1 - prec) = true.
Proof.
  unfold SpecFloat.bounded, canonical_mantissa, one_mantissa.
  rewrite digits2_pos_shl. cbn [digits2_pos].
  apply andb_true_intro. split.
  - apply Z.eqb_eq. unfold fexp, emin. lia.
  - apply Z.leb_le. lia.
Qed.

Lemma IEEE_one :
  T_ (A := IEEE prec emax) 1 = S754_finite false (one_mantissa prec) (1 - prec).
Proof.
  unfold T_. cbn [cast IEEE IEEE_cast binary_normalize].
  unfold binary_round. cbn [digits2_pos].
  assert (Hf : fexp prec emax (1 + 0) = 1 - prec)
    by (unfold fexp, emin; lia).
  rewrite Hf. unfold shl_align.
  assert (Hd : 1 - prec - 0 = Zneg (Z.to_pos (prec - 1))) by lia.
  rewrite Hd.
  apply (binary_round_aux_bounded false (one_mantissa prec) (1 - prec) one_bounded).
Qed.

Lemma one_mantissa_value : Zpos (one_mantissa prec) = 2 ^ (prec - 1).
Proof.
  unfold one_mantissa. rewrite shl_value, Z2Pos.id by lia. lia.
Qed.

(** The product of [T(1)] and a finite value of the format is that
    value: the rounding of the product is exact. *)
Lemma SFmul_one_l (x : spec_float) :
  is_finite x = true -> valid_binary prec emax x = true ->
  SFmul prec emax (T_ (A := IEEE prec emax) 1) x = x.
Proof.
  rewrite IEEE_one.
  destruct x as [s|s| |s m e]; try discriminate; intros _ Hv.
  - reflexivity.
  - cbn [SFmul valid_binary xorb] in *. unfold one_mantissa.
    rewrite mul_shl_one.
    replace (1 - prec + e) with (e - Zpos (Z.to_pos (prec - 1))) by lia.
    apply binary_round_aux_shl, Hv.
Qed.

(** [T(1) - T(1)] is [+0]. *)
Lemma SFsub_one_one :
  SFsub prec emax (T_ (A := IEEE prec emax) 1) (T_ (A := IEEE prec emax) 1)
  = S754_zero false.
Proof.
  rewrite IEEE_one. cbn [SFsub cond_Zopp].
  match goal with
  | |- binary_normalize _ _ ?z _ _ = _ => replace z with 0 by lia
  end.
  reflexivity.
Qed.

Lemma SFsub_one_zero :
  SFsub prec emax (T_ (A := F) 1) (S754_zero false) = T_ (A := F) 1.
Proof. rewrite IEEE_one. reflexivity. Qed.

Lemma finite_one (s : bool) (m : positive) :
  Zpos m = 2 ^ (prec - 1) ->
  S754_finite s m (1 - prec)
  = (if s then SFopp (T_ (A := F) 1) else T_ (A := F) 1).
Proof.
  intros H. rewrite IEEE_one.
  assert (E : m = one_mantissa prec)
    by (apply Pos2Z.inj; rewrite one_mantissa_value; exact H).
  rewrite E. destruct s; reflexivity.
Qed.
End RoundExact.

(** ** Order and subtraction *)

Section OrderAndSubtraction.
Variables prec emax : Z.

(** Of two values of the format, the one with the lower exponent has
    the lower magnitude. *)
Lemma canonical_lt (ma mb : positive) (ea eb : Z) :
  canonical_mantissa prec emax ma ea = true ->
  canonical_mantissa prec emax mb eb = true ->
  ea < eb -> Zpos ma < Zpos mb * 2 ^ (eb - ea).
Proof.
  unfold canonical_mantissa, fexp. intros Ha Hb Hlt.
  apply Z.eqb_eq in Ha. apply Z.eqb_eq in Hb.
  pose proof (digits2_pos_bounds ma) as [_ Hma].
  pose proof (digits2_pos_bounds mb) as [Hmb _].
  assert (Hdb : Zpos (digits2_pos mb) = prec) by lia.
  assert (Hda : Zpos (digits2_pos ma) <= prec) by lia.
  assert (H1 : 2 ^ Zpos (digits2_pos ma) <= 2 ^ prec)
    by (apply Z.pow_le_mono_r; lia).
  assert (H2 : 2 ^ prec = 2 * 2 ^ (prec - 1)).
  { rewrite <- Z.pow_succ_r by lia. f_equal. lia. }
  assert (H3 : 2 ^ 1 <= 2 ^ (eb - ea)) by (apply Z.pow_le_mono_r; lia).
  rewrite Hdb in Hmb. change (2 ^ 1) with 2 in H3. nia.
Qed.

(** [SFcompare] on two finite values of the format compares their
    values, taken as multiples of the same power of two. *)
Lemma SFcompare_scaled (sa sb : bool) (ma mb : positive) (ea eb : Z) :
  canonical_mantissa prec emax ma ea = true ->
  canonical_mantissa prec emax mb eb = true ->
  SFcompare (S754_finite sa ma ea) (S754_finite sb mb eb)
  = Some (Z.compare (scaled sa ma ea (Z.min ea eb))
            (scaled sb mb eb (Z.min ea eb))).
Proof.
  intros Ha Hb. cbn [SFcompare]. f_equal. unfold scaled.
  assert (Pa : 0 < Zpos ma * 2 ^ (ea - Z.min ea eb))
    by (apply Z.mul_pos_pos; [lia | apply Z.pow_pos_nonneg; lia]).
  assert (Pb : 0 < Zpos mb * 2 ^ (eb - Z.min ea eb))
    by (apply Z.mul_pos_pos; [lia | apply Z.pow_pos_nonneg; lia]).
  assert (Hcmp :
    match Z.compare ea eb with
    | Lt => Lt
    | Gt => Gt
    | Eq => Pos.compare_cont Eq ma mb
    end
    = Z.compare (Zpos ma * 2 ^ (ea - Z.min ea eb))
        (Zpos mb * 2 ^ (eb - Z.min ea eb))).
  { destruct (Z.compare_spec ea eb) as [E|E|E].
    - subst eb. rewrite Z.min_id, Z.sub_diag, !Z.mul_1_r. reflexivity.
    - rewrite Z.min_l, Z.sub_diag, Z.mul_1_r by lia.
      symmetry. apply Z.compare_lt_iff. apply canonical_lt; assumption.
    - rewrite Z.min_r, Z.sub_diag, Z.mul_1_r by lia.
      symmetry. apply Z.compare_gt_iff. apply canonical_lt; assumption. }
  destruct sa, sb; cbn [cond_Zopp].
  - rewrite Z.compare_opp.
    rewrite (Z.compare_antisym (Zpos ma * 2 ^ (ea - Z.min ea eb))
               (Zpos mb * 2 ^ (eb - Z.min ea eb))), <- Hcmp.
    destruct (Z.compare ea eb); reflexivity.
  - symmetry. apply Z.compare_lt_iff. lia.
  - symmetry. apply Z.compare_gt_iff. lia.
  - exact Hcmp.
Qed.

(** The difference of two finite values is the rounding of the
    difference of their scaled values. *)
Lemma SFsub_scaled (sa sb : bool) (ma mb : positive) (ea eb : Z) :
  SFsub prec emax (S754_finite sa ma ea) (S754_finite sb mb eb)
  = binary_normalize prec emax
      (scaled sa ma ea (Z.min ea eb) - scaled sb mb eb (Z.min ea eb))
      (Z.min ea eb) false.
Proof.
  cbn [SFsub]. unfold scaled.
  rewrite !shl_align_value by lia. reflexivity.
Qed.

(** The sign given to [binary_round] is the sign of its result. *)
Lemma binary_round_abs (s : bool) (m : positive) (e : Z) :
  SFabs (binary_round prec emax s m e) = binary_round prec emax false m e.
Proof.
  unfold binary_round. destruct (shl_align _ _ _) as [mz ez].
  unfold binary_round_aux.
  destruct (shr_fexp prec emax (Zpos mz) ez loc_Exact) as [mrs' e'].
  destruct (shr_fexp prec emax _ e' loc_Exact) as [mrs'' e''].
  destruct (shr_m mrs'') as [|p|p]; try reflexivity.
  destruct (e'' <=? emax - prec); reflexivity.
Qed.

Lemma binary_normalize_abs_opp (z e : Z) :
  SFabs (binary_normalize prec emax (- z) e false)
  = SFabs (binary_normalize prec emax z e false).
Proof.
  destruct z as [|p|p]; cbn [Z.opp binary_normalize]; try reflexivity;
    rewrite !binary_round_abs; reflexivity.
Qed.

Lemma binary_normalize_abs_nonneg (z e : Z) :
  0 <= z ->
  SFabs (binary_normalize prec emax z e false)
  = binary_normalize prec emax z e false.
Proof.
  destruct z as [|p|p]; cbn [binary_normalize]; intros H;
    try reflexivity; try lia.
  apply binary_round_abs.
Qed.
End OrderAndSubtraction.

(** ** Real values *)

Section PowersOfTwo.
Local Open Scope R_scope.

Lemma powerRZ_2_ge_1 (k : Z) : (0 <= k)%Z -> 1 <= powerRZ 2 k.
Proof.
  intros H. rewrite <- (Z2Nat.id k H), <- pow_powerRZ.
  apply pow_R1_Rle. lra.
Qed.

Lemma powerRZ_2_mono (j k : Z) : (j <= k)%Z -> powerRZ 2 j <= powerRZ 2 k.
Proof.
  intros H. replace k with (j + (k - j))%Z by lia.
  rewrite powerRZ_add by lra.
  pose proof (powerRZ_2_ge_1 (k - j) ltac:(lia)).
  pose proof (powerRZ_lt 2 j ltac:(lra)). nra.
Qed.

Lemma IZR_pow_2 (k : Z) : (0 <= k)%Z -> IZR (2 ^ k) = powerRZ 2 k.
Proof.
  intros H. rewrite <- (Z2Nat.id k H), <- pow_IZR, pow_powerRZ. reflexivity.
Qed.

Lemma SF2R_finite (s : bool) (m : positive) (e : Z) :
  SF2R (S754_finite s m e)
  = (if s then -1 else 1) * (IZR (Zpos m) * powerRZ 2 e).
Proof.
  destruct s; cbn [SF2R cond_Zopp].
  - change (Z.opp (Zpos m)) with (Zneg m).
    change (Zneg m) with (- Zpos m)%Z. rewrite opp_IZR. ring.
  - ring.
Qed.

Lemma SF2R_opp (x : spec_float) : SF2R (SFopp x) = - SF2R x.
Proof.
  destruct x as [s|s| |s m e]; cbn [SFopp]; try (cbn [SF2R]; ring).
  rewrite !SF2R_finite. destruct s; cbn [negb]; ring.
Qed.
End PowersOfTwo.

Section NearOne.
Variables prec emax : Z.
Hypothesis Hprec : 2 <= prec.
Hypothesis Hemax : 4 <= emax.
Local Open Scope R_scope.

(** [u] is [2^(prec-1)], the mantissa of [1], and [A] is [2^(1-prec)],
    the gap between [1] and the next value of the format. *)
Local Abbreviation u := (IZR (2 ^ (prec - 1))).
Local Abbreviation A := (powerRZ 2 (1 - prec)).
Local Abbreviation F := (IEEE prec emax).

Lemma gap_facts :
  2 <= u /\ A * u = 1 /\ powerRZ 2 (- prec) = A / 2 /\
  IZR (2 ^ prec) = 2 * u.
Proof.
  assert (Hu : u = powerRZ 2 (prec - 1)) by (apply IZR_pow_2; lia).
  assert (H1 : powerRZ 2 1 <= powerRZ 2 (prec - 1))
    by (apply powerRZ_2_mono; lia).
  rewrite powerRZ_1 in H1.
  assert (H2 : A * u = 1).
  { rewrite Hu, <- powerRZ_add by lra.
    replace (1 - prec + (prec - 1))%Z with 0%Z by lia. reflexivity. }
  assert (Hhalf : powerRZ 2 (-1) = / 2) by (simpl; lra).
  assert (H3 : powerRZ 2 (- prec) = A / 2).
  { replace (- prec)%Z with (1 - prec + -1)%Z by lia.
    rewrite powerRZ_add, Hhalf by lra. lra. }
  assert (H4 : IZR (2 ^ prec) = 2 * u).
  { replace prec with (Z.succ (prec - 1)) at 1 by lia.
    rewrite Z.pow_succ_r by lia. rewrite mult_IZR. reflexivity. }
  rewrite <- Hu in H1. auto.
Qed.

(** The values of the format whose magnitude is within the gap of [1]:
    [1] itself and the value just below. *)
Lemma near_one_magnitude (m : positive) (e : Z) :
  SpecFloat.bounded prec emax m e = true ->
  1 - A < IZR (Zpos m) * powerRZ 2 e < 1 + A / 2 ->
  (e = 1 - prec /\ Zpos m = 2 ^ (prec - 1))%Z \/
  (e = - prec /\ Zpos m = 2 ^ prec - 1)%Z.
Proof.
  intros Hb [Hlo Hhi].
  destruct gap_facts as (Hu & HAu & HA2 & Hp).
  unfold SpecFloat.bounded, canonical_mantissa, fexp, emin in Hb.
  apply andb_prop in Hb. destruct Hb as [Hc _]. apply Z.eqb_eq in Hc.
  pose proof (digits2_pos_bounds m) as [Hm1 Hm2].
  assert (HA : 0 < A) by (apply powerRZ_lt; lra).
  assert (HE : 0 < powerRZ 2 e) by (apply powerRZ_lt; lra).
  assert (Hhalf : powerRZ 2 (-1) = / 2) by (simpl; lra).
  assert (Hd : (Zpos (digits2_pos m) <= prec)%Z) by lia.
  assert (Hm : IZR (Zpos m) < 2 * u).
  { rewrite <- Hp. apply IZR_lt.
    apply Z.lt_le_trans with (1 := Hm2). apply Z.pow_le_mono_r; lia. }
  assert (Hm0 : 0 < IZR (Zpos m)) by (apply IZR_lt; lia).
  destruct (Z_lt_le_dec e (- prec)) as [E1|E1].
  { (* too small *)
    exfalso.
    assert (H : powerRZ 2 e <= powerRZ 2 (- prec + -1))
      by (apply powerRZ_2_mono; lia).
    rewrite powerRZ_add, HA2, Hhalf in H by lra.
    assert (H1 : IZR (Zpos m) * powerRZ 2 e <= IZR (Zpos m) * (A / 4))
      by (apply Rmult_le_compat_l; lra).
    assert (H2 : IZR (Zpos m) * (A / 4) < 2 * u * (A / 4))
      by (apply Rmult_lt_compat_r; lra).
    nra. }
  assert (Hfull : Zpos (digits2_pos m) = prec) by lia.
  rewrite Hfull in Hm1.
  assert (Hm' : u <= IZR (Zpos m)) by (apply IZR_le; exact Hm1).
  destruct (Z_lt_le_dec (1 - prec) e) as [E2|E2].
  { (* too large *)
    exfalso.
    assert (H : powerRZ 2 (1 - prec + 1) <= powerRZ 2 e)
      by (apply powerRZ_2_mono; lia).
    rewrite powerRZ_add, powerRZ_1 in H by lra.
    assert (H1 : u * (A * 2) <= IZR (Zpos m) * powerRZ 2 e)
      by (apply Rmult_le_compat; lra).
    nra. }
  assert (E : e = (- prec)%Z \/ e = (1 - prec)%Z) by lia.
  destruct E as [E|E]; subst e.
  - right. split; [reflexivity|].
    rewrite HA2 in Hlo.
    assert (H : IZR (2 ^ prec - 2) < IZR (Zpos m)).
    { rewrite minus_IZR, Hp. nra. }
    apply lt_IZR in H.
    assert (H' : (Zpos m < 2 ^ prec)%Z).
    { apply lt_IZR. rewrite Hp. exact Hm. }
    lia.
  - left. split; [reflexivity|].
    assert (H : IZR (Zpos m) < IZR (2 ^ (prec - 1) + 1)).
    { rewrite plus_IZR. nra. }
    apply lt_IZR in H. lia.
Qed.

Lemma SF2R_one : SF2R (T_ (A := F) 1) = 1.
Proof.
  destruct gap_facts as (_ & HAu & _).
  rewrite (IEEE_one prec emax Hprec ltac:(lia)), SF2R_finite.
  rewrite (one_mantissa_value prec Hprec). rewrite Rmult_comm in HAu. lra.
Qed.

Lemma SF2R_minus_one_up :
  SF2R (minus_one_up prec) = -1 + powerRZ 2 (1 - prec) / 2.
Proof.
  destruct gap_facts as (Hu & HAu & HA2 & Hp).
  unfold minus_one_up. rewrite SF2R_finite.
  assert (Hpos : (0 < 2 ^ prec - 1)%Z).
  { assert (2 ^ 1 <= 2 ^ prec)%Z by (apply Z.pow_le_mono_r; lia). lia. }
  rewrite Z2Pos.id by exact Hpos.
  rewrite minus_IZR, Hp, HA2. nra.
Qed.
End NearOne.

(** * [gf/Math.h] *)

(** ** [almostEquals] *)

Section AlmostEquals.
Variables prec emax : Z.
Local Abbreviation F := (IEEE prec emax).
Local Abbreviation L := (IEEE_limits prec emax).

(** The conditional of the source that bounds the sum by [max()] is the
    minimum that skips a NaN. *)
Lemma bounded_sum_fmin (sum : spec_float) :
  (if SFltb sum (SFmax_float prec emax) then sum else SFmax_float prec emax)
  = SFfmin sum (SFmax_float prec emax).
Proof.
  unfold SFltb, SFfmin.
  destruct (SFcompare sum (SFmax_float prec emax)) as [[ | | ]|] eqn:E;
    try reflexivity.
  apply SFcompare_None in E. destruct E as [E|E].
  - rewrite E. reflexivity.
  - discriminate E.
Qed.

(** With [std::min] in place of the conditional, the quotient differs
    only when the sum is NaN, and then the difference is NaN as well. *)
Lemma bounded_sum_std_min (a b epsilon : spec_float) :
  let diff := SFabs (SFsub prec emax a b) in
  let sum := SFadd prec emax (SFabs a) (SFabs b) in
  SFltb
    (SFdiv prec emax diff
       (if SFltb sum (SFmax_float prec emax) then sum
        else SFmax_float prec emax))
    epsilon
  = SFltb
      (SFdiv prec emax diff (std_min (A := F) sum (SFmax_float prec emax)))
      epsilon.
Proof.
  intros diff sum. unfold std_min. ieee_ops. unfold SFltb at 2 4.
  rewrite (SFcompare_swap sum (SFmax_float prec emax)).
  destruct (SFcompare sum (SFmax_float prec emax)) as [[ | | ]|] eqn:E;
    cbn [option_map CompOpp]; try reflexivity.
  - apply SFcompare_Eq_finite in E. rewrite E. reflexivity.
  - apply SFcompare_None in E. destruct E as [E|E]; [|discriminate E].
    apply SFadd_abs_nan in E.
    assert (Hd : diff = S754_nan).
    { unfold diff. destruct E as [E|E].
      - destruct a; try discriminate E. reflexivity.
      - destruct b; try discriminate E. rewrite SFsub_nan_r. reflexivity. }
    rewrite Hd. reflexivity.
Qed.

Lemma almostEquals_std_min (a b epsilon : spec_float) :
  almostEquals (A := F) (L := L) a b epsilon
  = almostEquals_cases (A := F) (L := L) (std_min (A := F)) a b epsilon.
Proof.
  unfold almostEquals, almostEquals_cases.
  destruct (eqb a b); [reflexivity|].
  cbv zeta.
  destruct (_ || _); [reflexivity|].
  apply bounded_sum_std_min.
Qed.

Lemma almostEquals_fmin (a b epsilon : spec_float) :
  almostEquals (A := F) (L := L) a b epsilon
  = almostEquals_cases (A := F) (L := L) SFfmin a b epsilon.
Proof.
  unfold almostEquals, almostEquals_cases.
  destruct (eqb a b); [reflexivity|].
  cbv zeta.
  destruct (_ || _); [reflexivity|].
  ieee_ops. rewrite bounded_sum_fmin. reflexivity.
Qed.

Lemma almostEquals_nan_l (b epsilon : spec_float) :
  almostEquals (A := F) (L := L) S754_nan b epsilon = false.
Proof.
  unfold almostEquals. ieee_ops.
  change (SFeqb S754_nan b) with false.
  change (SFsub prec emax S754_nan b) with S754_nan.
  change (SFabs S754_nan) with S754_nan.
  change (SFdiv prec emax S754_nan) with (fun _ : spec_float => S754_nan).
  cbv beta. change (SFltb S754_nan) with (fun _ : spec_float => false).
  cbv beta.
  destruct (_ || _); reflexivity.
Qed.

Lemma almostEquals_nan_r (a epsilon : spec_float) :
  almostEquals (A := F) (L := L) a S754_nan epsilon = false.
Proof.
  unfold almostEquals. ieee_ops.
  rewrite SFeqb_nan_r, SFsub_nan_r.
  change (SFabs S754_nan) with S754_nan.
  change (SFdiv prec emax S754_nan) with (fun _ : spec_float => S754_nan).
  cbv beta. change (SFltb S754_nan) with (fun _ : spec_float => false).
  cbv beta.
  destruct (_ || _); reflexivity.
Qed.
End AlmostEquals.

(** C1: on every IEEE format, [almostEquals(a, b, epsilon)] is [true]
    when [a == b]; otherwise, with [diff = |a - b|], it is
    [diff < epsilon * denorm_min] when [a] is zero, [b] is zero or
    [diff < denorm_min], and [diff / min(|a| + |b|, max) < epsilon] in the
    remaining case, the minimum being read as [std::min] or as the minimum
    that skips a NaN alike. *)
Theorem almostEquals_by_cases :
  forall (prec emax : Z) (a b epsilon : spec_float),
    almostEquals (A := IEEE prec emax) (L := IEEE_limits prec emax)
      a b epsilon
    = almostEquals_cases (A := IEEE prec emax) (L := IEEE_limits prec emax)
        (std_min (A := IEEE prec emax)) a b epsilon /\
    almostEquals (A := IEEE prec emax) (L := IEEE_limits prec emax)
      a b epsilon
    = almostEquals_cases (A := IEEE prec emax) (L := IEEE_limits prec emax)
        SFfmin a b epsilon /\
    (eqb (Arith := IEEE prec emax) a b = true ->
     almostEquals (A := IEEE prec emax) (L := IEEE_limits prec emax)
       a b epsilon = true).
Proof.
  intros prec emax a b epsilon.
  split; [apply almostEquals_std_min|].
  split; [apply almostEquals_fmin|].
  intros H. unfold almostEquals. rewrite H. reflexivity.
Qed.

(** A value that is not NaN is approximately equal to itself, whatever
    the tolerance. *)
Lemma almostEquals_refl (prec emax : Z) (x epsilon : spec_float) :
  is_nan x = false ->
  almostEquals (A := IEEE prec emax) (L := IEEE_limits prec emax)
    x x epsilon = true.
Proof.
  intros H. unfold almostEquals. ieee_ops. unfold SFeqb.
  rewrite SFcompare_refl by exact H. reflexivity.
Qed.

(** Three runs of [almostEquals<float>] with the default tolerance: equal
    values, the branch of the absolute tolerance and the branch of the
    relative one. *)
Example almostEquals_runs :
  let one := T_ (A := binary32) 1 in
  let next := S754_finite false 8388609 (-23) in
  let far := S754_finite false 8388611 (-23) in
  almostEquals_default (A := binary32) (L := binary32_limits) one one = true /\
  almostEquals_default (A := binary32) (L := binary32_limits)
    (S754_zero false) (S754_finite false 1 (-149)) = false /\
  almostEquals_default (A := binary32) (L := binary32_limits) one next = true /\
  almostEquals_default (A := binary32) (L := binary32_limits) one far = false.
Proof. vm_compute. repeat split. Qed.

(** ** NaN through the functions *)

Section NaN.
Variables prec emax : Z.
Local Abbreviation F := (IEEE prec emax).

(** NaN goes through every function that returns a [T]: no function
    tests for it. *)
Lemma nan_through_unary :
  degreesToRadians (A := F) S754_nan = S754_nan /\
  radiansToDegrees (A := F) S754_nan = S754_nan /\
  linearStep S754_nan = S754_nan /\
  cubicStep (A := F) S754_nan = S754_nan /\
  quinticStep (A := F) S754_nan = S754_nan /\
  square (A := F) S754_nan = S754_nan /\
  cube (A := F) S754_nan = S754_nan.
Proof.
  unfold degreesToRadians, radiansToDegrees, linearStep, cubicStep,
    quinticStep, square, cube.
  ieee_ops. repeat rewrite SFmul_nan_r. repeat split.
Qed.

Lemma nan_through_clamp (lo hi : spec_float) :
  clamp (A := F) S754_nan lo hi = S754_nan.
Proof. unfold clamp. ieee_ops. rewrite SFltb_nan_r. reflexivity. Qed.

Lemma nan_through_lerp (x y : spec_float) :
  lerp (A := F) S754_nan x y = S754_nan /\
  lerp (A := F) x S754_nan y = S754_nan /\
  lerp (A := F) x y S754_nan = S754_nan.
Proof.
  unfold lerp. ieee_ops.
  repeat rewrite SFmul_nan_r. repeat rewrite SFsub_nan_r.
  repeat rewrite SFadd_nan_r. repeat split.
Qed.

Lemma nan_through_absdiff (x : spec_float) :
  absdiff (A := F) S754_nan x = S754_nan /\
  absdiff (A := F) x S754_nan = S754_nan.
Proof.
  unfold absdiff. ieee_ops. rewrite SFltb_nan_r, SFsub_nan_r.
  change (SFltb S754_nan x) with false. cbv iota.
  change (SFsub prec emax S754_nan x) with S754_nan. split; reflexivity.
Qed.
End NaN.

(** The integer divisions of the header never divide by zero: the
    divisor of [almostEquals] is positive when the division is reached,
    that is when neither value is zero, and the two angle conversions
    divide by [180] and by [pi<int>()], which is [3]. *)
Lemma integer_divisors_nonzero :
  (forall w a b : Z,
      2 <= w -> a <> 0 -> b <> 0 ->
      0 < almostEquals_divisor (A := Z_arith) (L := int_limits w) a b) /\
  T_ (A := Z_arith) 180 = 180 /\ pi (A := Z_arith) = 3.
Proof.
  split; [|split; reflexivity].
  intros w a b Hw Ha Hb. unfold almostEquals_divisor.
  cbn [add ltb Z_arith std_abs numeric_limits_max int_limits].
  assert (H : 2 ^ 1 <= 2 ^ (w - 1)) by (apply Z.pow_le_mono_r; lia).
  change (2 ^ 1) with 2 in H.
  destruct (Z.ltb_spec (Z.abs a + Z.abs b) (2 ^ (w - 1) - 1)); lia.
Qed.

Lemma almostEquals_divides_by_divisor
    {T : Type} {A : Arith T} {L : Limits T} (a b epsilon : T) :
  almostEquals a b epsilon
  = if eqb a b then true
    else
      let diff := std_abs (sub a b) in
      if eqb a (T_ 0) || eqb b (T_ 0) || ltb diff numeric_limits_denorm_min
      then ltb diff (mul epsilon numeric_limits_denorm_min)
      else ltb (div diff (almostEquals_divisor a b)) epsilon.
Proof. reflexivity. Qed.

(** C8: no function has a failure branch: each is a total function of
    the embedding, and the integer divisions never divide by zero.  A NaN
    operand is not tested for: it goes through every function that returns
    a [T], and [almostEquals] answers [false] as soon as one of the two
    compared values is NaN, whatever the other value and the
    tolerance. *)
Theorem almostEquals_nan_false :
  forall (prec emax : Z),
    (forall b epsilon : spec_float,
        almostEquals (A := IEEE prec emax) (L := IEEE_limits prec emax)
          S754_nan b epsilon = false) /\
    (forall a epsilon : spec_float,
        almostEquals (A := IEEE prec emax) (L := IEEE_limits prec emax)
          a S754_nan epsilon = false) /\
    (degreesToRadians (A := IEEE prec emax) S754_nan = S754_nan /\
     radiansToDegrees (A := IEEE prec emax) S754_nan = S754_nan /\
     linearStep S754_nan = S754_nan /\
     cubicStep (A := IEEE prec emax) S754_nan = S754_nan /\
     quinticStep (A := IEEE prec emax) S754_nan = S754_nan /\
     square (A := IEEE prec emax) S754_nan = S754_nan /\
     cube (A := IEEE prec emax) S754_nan = S754_nan) /\
    (forall x y : spec_float,
        clamp (A := IEEE prec emax) S754_nan x y = S754_nan /\
        lerp (A := IEEE prec emax) S754_nan x y = S754_nan /\
        lerp (A := IEEE prec emax) x S754_nan y = S754_nan /\
        lerp (A := IEEE prec emax) x y S754_nan = S754_nan /\
        absdiff (A := IEEE prec emax) S754_nan x = S754_nan /\
        absdiff (A := IEEE prec emax) x S754_nan = S754_nan) /\
    (forall w a b : Z,
        2 <= w -> a <> 0 -> b <> 0 ->
        0 < almostEquals_divisor (A := Z_arith) (L := int_limits w) a b).
Proof.
  intros prec emax. split; [|split; [|split; [|split]]].
  - apply almostEquals_nan_l.
  - apply almostEquals_nan_r.
  - apply nan_through_unary.
  - intros x y.
    pose proof (nan_through_lerp prec emax x y) as (H1 & H2 & H3).
    pose proof (nan_through_absdiff prec emax x) as (H4 & H5).
    pose proof (nan_through_clamp prec emax x y) as H6.
    repeat split; assumption.
  - apply integer_divisors_nonzero.
Qed.

(** ** [degreesToRadians] and [radiansToDegrees] *)

Section AnglesExact.
Local Open Scope R_scope.





End AnglesExact.

(** In [float] and in [double] the two roundings of each conversion of
    the half turn give back the rounded constant itself. *)
Lemma half_turn_binary32 :
  degreesToRadians (A := binary32) (T_ (A := binary32) 180)
  = pi (A := binary32) /\
  radiansToDegrees (A := binary32) (pi (A := binary32))
  = T_ (A := binary32) 180.
Proof. vm_compute. split; reflexivity. Qed.

Lemma half_turn_binary64 :
  degreesToRadians (A := binary64) (T_ (A := binary64) 180)
  = pi (A := binary64) /\
  radiansToDegrees (A := binary64) (pi (A := binary64))
  = T_ (A := binary64) 180.
Proof. vm_compute. split; reflexivity. Qed.


(** ** The step functions: their polynomials *)

(** In every instantiation whose operators form a commutative ring, the
    factored evaluations of the source are the polynomials of the
    specification.  No IEEE format is such a ring: there the equality is
    not an identity of the arithmetic, and it fails. *)
Section StepPolynomials.
Context {T : Type} {A : Arith T}.
Hypothesis T_ring :
  ring_theory (T_ 0) (T_ 1) add mul sub neg (@Logic.eq T).

Add Ring T_ring_structure : T_ring.

Lemma cubicStep_ring (t : T) : cubicStep t = cubic_polynomial t.
Proof. unfold cubicStep, cubic_polynomial. simpl power. ring. Qed.

Lemma quinticStep_ring (t : T) : quinticStep t = quintic_polynomial t.
Proof. unfold quinticStep, quintic_polynomial. simpl power. ring. Qed.
End StepPolynomials.

(** The integers and the reals, with the operators of their
    instantiations, are such rings. *)
Lemma Z_arith_ring :
  ring_theory (T_ (A := Z_arith) 0) (T_ (A := Z_arith) 1)
    (add (Arith := Z_arith)) (mul (Arith := Z_arith))
    (sub (Arith := Z_arith)) (neg (Arith := Z_arith)) (@Logic.eq Z).
Proof. exact Zth. Qed.

Lemma R_arith_ring :
  ring_theory (T_ (A := R_arith) 0) (T_ (A := R_arith) 1)
    (add (Arith := R_arith)) (mul (Arith := R_arith))
    (sub (Arith := R_arith)) (neg (Arith := R_arith)) (@Logic.eq R).
Proof. exact RTheory. Qed.

(** The arithmetic of a [w]-bit unsigned type is the arithmetic of the
    integers modulo [2^w]: the two evaluations agree there as well. *)
Lemma step_polynomials_uint (w t : Z) :
  cubicStep (A := uint_arith w) t
  = wrap w (cubic_polynomial (A := Z_arith) t) /\
  quinticStep (A := uint_arith w) t
  = wrap w (quintic_polynomial (A := Z_arith) t).
Proof.
  unfold cubicStep, quinticStep, cubic_polynomial, quintic_polynomial, T_.
  simpl power. unfold T_. cbn [cast add sub mul neg uint_arith Z_arith].
  cbn [literal_num literal_den]. rewrite !Z.quot_1_r. unfold wrap.
  pose proof (eqm_setoid (2 ^ w)) as Hequiv.
  pose proof (Zplus_eqm (2 ^ w)) as Hadd.
  pose proof (Zminus_eqm (2 ^ w)) as Hsub.
  pose proof (Zmult_eqm (2 ^ w)) as Hmul.
  pose proof (Zopp_eqm (2 ^ w)) as Hopp.
  assert (E : forall a, eqm (2 ^ w) (a mod 2 ^ w) a) by apply Zmod_eqm.
  split;
    match goal with
    | |- ?X mod ?m = ?Y mod ?m => change (eqm m X Y)
    end;
    rewrite !E;
    match goal with
    | |- eqm _ ?X ?Y => replace X with Y by ring
    end; reflexivity.
Qed.

(** The polynomials themselves, evaluated in the arithmetic of a [w]-bit
    unsigned type, are those of the integers modulo [2^w] as well. *)
Lemma polynomials_uint (w t : Z) :
  cubic_polynomial (A := uint_arith w) t
  = wrap w (cubic_polynomial (A := Z_arith) t) /\
  quintic_polynomial (A := uint_arith w) t
  = wrap w (quintic_polynomial (A := Z_arith) t).
Proof.
  unfold cubic_polynomial, quintic_polynomial, T_.
  simpl power. unfold T_. cbn [cast add sub mul neg uint_arith Z_arith].
  cbn [literal_num literal_den]. rewrite !Z.quot_1_r. unfold wrap.
  pose proof (eqm_setoid (2 ^ w)) as Hequiv.
  pose proof (Zplus_eqm (2 ^ w)) as Hadd.
  pose proof (Zminus_eqm (2 ^ w)) as Hsub.
  pose proof (Zmult_eqm (2 ^ w)) as Hmul.
  pose proof (Zopp_eqm (2 ^ w)) as Hopp.
  assert (E : forall a, eqm (2 ^ w) (a mod 2 ^ w) a) by apply Zmod_eqm.
  split;
    match goal with
    | |- ?X mod ?m = ?Y mod ?m => change (eqm m X Y)
    end;
    repeat (rewrite_strat (outermost E));
    match goal with
    | |- eqm _ ?X ?Y => replace X with Y by ring
    end; reflexivity.
Qed.

(** On values with a finite binary expansion the two evaluations agree
    in [float] as well: every intermediate result is exact. *)
Example step_polynomials_binary32_half :
  let half := cast (Arith := binary32) (DecLit 5 1) in
  cubicStep (A := binary32) half = half /\
  cubic_polynomial (A := binary32) half = half /\
  quinticStep (A := binary32) half = half /\
  quintic_polynomial (A := binary32) half = half.
Proof. vm_compute. repeat split. Qed.

(** In [float] and in [double] the factored evaluation and the
    polynomial are two sequences of roundings, and their results differ:
    at [t = 0.3] by one or two units in the last place, and at [t = 2^127],
    where the factored evaluation overflows to an infinity and the
    polynomial subtracts two infinities. *)
Example step_polynomials_rounded_values :
  let t := cast (Arith := binary32) (DecLit 3 1) in
  let big := S754_finite false 8388608 104 in
  t = S754_finite false 10066330 (-25) /\
  cubicStep (A := binary32) t = S754_finite false 14495516 (-26) /\
  cubic_polynomial (A := binary32) t = S754_finite false 14495515 (-26) /\
  quinticStep (A := binary32) t = S754_finite false 10944114 (-26) /\
  quintic_polynomial (A := binary32) t = S754_finite false 10944116 (-26) /\
  approx 24 128 (cubicStep (A := binary32) t)
    (cubic_polynomial (A := binary32) t) /\
  approx 24 128 (quinticStep (A := binary32) t)
    (quintic_polynomial (A := binary32) t) /\
  cubicStep (A := binary32) big = S754_infinity true /\
  cubic_polynomial (A := binary32) big = S754_nan.
Proof. vm_compute. repeat split. Qed.

(** C4, as the specification states it, fails in [float] and in
    [double]: at [t = 0.3] the factored evaluation of each step and its
    polynomial round to different values. *)
Lemma step_polynomials_rounding_differs :
  ~ (forall t : spec_float,
        cubicStep (A := binary32) t = cubic_polynomial (A := binary32) t) /\
  ~ (forall t : spec_float,
        quinticStep (A := binary32) t = quintic_polynomial (A := binary32) t) /\
  ~ (forall t : spec_float,
        cubicStep (A := binary64) t = cubic_polynomial (A := binary64) t) /\
  ~ (forall t : spec_float,
        quinticStep (A := binary64) t = quintic_polynomial (A := binary64) t).
Proof.
  split; [|split; [|split]]; intros H.
  - specialize (H (cast (Arith := binary32) (DecLit 3 1))).
    vm_compute in H. discriminate H.
  - specialize (H (cast (Arith := binary32) (DecLit 3 1))).
    vm_compute in H. discriminate H.
  - specialize (H (cast (Arith := binary64) (DecLit 3 1))).
    vm_compute in H. discriminate H.
  - specialize (H (cast (Arith := binary64) (DecLit 3 1))).
    vm_compute in H. discriminate H.
Qed.

(** C4, amended: in exact arithmetic the factored evaluation of
    [cubicStep] is the polynomial [-2 t^3 + 3 t^2] and that of
    [quinticStep] is [6 t^5 - 15 t^4 + 10 t^3], for every [t]: in every
    instantiation whose operators form a commutative ring (the integers,
    the reals), and on a [w]-bit unsigned type, where both are the
    polynomial of the integers modulo [2^w]. *)
Theorem step_polynomials :
  (forall (T : Type) (A : Arith T),
      ring_theory (T_ 0) (T_ 1) add mul sub neg (@Logic.eq T) ->
      forall t : T,
        cubicStep t = cubic_polynomial t /\
        quinticStep t = quintic_polynomial t) /\
  (forall w t : Z,
      cubicStep (A := uint_arith w) t = cubic_polynomial (A := uint_arith w) t /\
      quinticStep (A := uint_arith w) t
      = quintic_polynomial (A := uint_arith w) t /\
      cubicStep (A := uint_arith w) t
      = wrap w (cubic_polynomial (A := Z_arith) t) /\
      quinticStep (A := uint_arith w) t
      = wrap w (quintic_polynomial (A := Z_arith) t)).
Proof.
  split.
  - intros T A Hring t. split.
    + apply cubicStep_ring, Hring.
    + apply quinticStep_ring, Hring.
  - intros w t.
    destruct (step_polynomials_uint w t) as [Hc Hq].
    destruct (polynomials_uint w t) as [Pc Pq].
    repeat split; congruence.
Qed.

Lemma step_polynomials_witness :
  (cubicStep (A := Z_arith) 2 = cubic_polynomial (A := Z_arith) 2 /\
   quinticStep (A := Z_arith) 2 = quintic_polynomial (A := Z_arith) 2) /\
  (forall t : R,
      cubicStep (A := R_arith) t = cubic_polynomial (A := R_arith) t /\
      quinticStep (A := R_arith) t = quintic_polynomial (A := R_arith) t).
Proof.
  split.
  - apply (proj1 step_polynomials Z Z_arith Z_arith_ring 2).
  - apply (proj1 step_polynomials R R_arith R_arith_ring).
Defined.

(** ** The step functions: their endpoints *)

(** In exact arithmetic the three polynomial steps are steps. *)
Lemma steps_exact_Z :
  step_endpoints_exact (A := Z_arith) linearStep /\
  step_endpoints_exact (A := Z_arith) (cubicStep (A := Z_arith)) /\
  step_endpoints_exact (A := Z_arith) (quinticStep (A := Z_arith)).
Proof. repeat split. Qed.

Lemma steps_exact_R :
  step_endpoints_exact (A := R_arith) linearStep /\
  step_endpoints_exact (A := R_arith) (cubicStep (A := R_arith)) /\
  step_endpoints_exact (A := R_arith) (quinticStep (A := R_arith)).
Proof.
  unfold step_endpoints_exact, linearStep, cubicStep, quinticStep, T_.
  cbn [cast add sub mul neg R_arith].
  repeat split; ring.
Qed.

(** In [float] and in [double] they are steps as well: every rounding on
    the way is exact. *)
Lemma steps_exact_binary32 :
  step_endpoints_exact (A := binary32) linearStep /\
  step_endpoints_exact (A := binary32) (cubicStep (A := binary32)) /\
  step_endpoints_exact (A := binary32) (quinticStep (A := binary32)).
Proof. vm_compute. repeat split. Qed.

Lemma steps_exact_binary64 :
  step_endpoints_exact (A := binary64) linearStep /\
  step_endpoints_exact (A := binary64) (cubicStep (A := binary64)) /\
  step_endpoints_exact (A := binary64) (quinticStep (A := binary64)).
Proof. vm_compute. repeat split. Qed.

(** Equal values are approximately equal, at the two endpoint values. *)
Lemma exact_approx (prec emax : Z) (f : spec_float -> spec_float) :
  step_endpoints_exact (A := IEEE prec emax) f ->
  approx prec emax (T_ (A := IEEE prec emax) 0) (T_ (A := IEEE prec emax) 0) ->
  approx prec emax (T_ (A := IEEE prec emax) 1) (T_ (A := IEEE prec emax) 1) ->
  step_endpoints_approx prec emax f.
Proof.
  intros [H0 H1] A0 A1. unfold step_endpoints_approx.
  rewrite H0, H1. split; assumption.
Qed.

(** [cosineStep] with a faithful [std::cos]: the endpoints are exact. *)
Lemma cosineStep_exact_binary32 (std_cos : spec_float -> spec_float) :
  cos_faithful_at_endpoints 24 128 std_cos ->
  step_endpoints_exact (A := binary32) (cosineStep (A := binary32) std_cos).
Proof.
  intros [H0 H1]. unfold step_endpoints_exact, cosineStep. split.
  - change (mul (Arith := binary32) (pi (A := binary32)) (T_ (A := binary32) 0))
      with (S754_zero false).
    rewrite H0. vm_compute. reflexivity.
  - change (mul (Arith := binary32) (pi (A := binary32)) (T_ (A := binary32) 1))
      with (pi (A := IEEE 24 128)).
    destruct H1 as [H1|H1]; rewrite H1; vm_compute; reflexivity.
Qed.

Lemma cosineStep_exact_binary64 (std_cos : spec_float -> spec_float) :
  cos_faithful_at_endpoints 53 1024 std_cos ->
  step_endpoints_exact (A := binary64) (cosineStep (A := binary64) std_cos).
Proof.
  intros [H0 H1]. unfold step_endpoints_exact, cosineStep. split.
  - change (mul (Arith := binary64) (pi (A := binary64)) (T_ (A := binary64) 0))
      with (S754_zero false).
    rewrite H0. vm_compute. reflexivity.
  - change (mul (Arith := binary64) (pi (A := binary64)) (T_ (A := binary64) 1))
      with (pi (A := IEEE 53 1024)).
    destruct H1 as [H1|H1]; rewrite H1; vm_compute; reflexivity.
Qed.

(** The four steps in [float], then in [double]. *)
Lemma steps_approx_binary32 (std_cos : spec_float -> spec_float) :
  cos_faithful_at_endpoints 24 128 std_cos ->
  step_endpoints_approx 24 128 linearStep /\
  step_endpoints_approx 24 128 (cubicStep (A := binary32)) /\
  step_endpoints_approx 24 128 (quinticStep (A := binary32)) /\
  step_endpoints_approx 24 128 (cosineStep (A := binary32) std_cos).
Proof.
  intros H.
  pose proof steps_exact_binary32 as (Hl & Hc & Hq).
  pose proof (cosineStep_exact_binary32 std_cos H) as Hk.
  repeat split; apply exact_approx; first [assumption | reflexivity].
Qed.

Lemma steps_approx_binary64 (std_cos : spec_float -> spec_float) :
  cos_faithful_at_endpoints 53 1024 std_cos ->
  step_endpoints_approx 53 1024 linearStep /\
  step_endpoints_approx 53 1024 (cubicStep (A := binary64)) /\
  step_endpoints_approx 53 1024 (quinticStep (A := binary64)) /\
  step_endpoints_approx 53 1024 (cosineStep (A := binary64) std_cos).
Proof.
  intros H.
  pose proof steps_exact_binary64 as (Hl & Hc & Hq).
  pose proof (cosineStep_exact_binary64 std_cos H) as Hk.
  repeat split; apply exact_approx; first [assumption | reflexivity].
Qed.

(** C3: each of [linearStep], [cubicStep], [quinticStep] and [cosineStep]
    maps [0] to approximately [0] and [1] to approximately [1], in [float]
    and in [double], with [almostEquals] and its default tolerance as the
    approximate equality.  [std::cos] is any function that is faithful at
    the two arguments [cosineStep] passes it. *)
Theorem step_endpoints :
  forall std_cos32 std_cos64 : spec_float -> spec_float,
    cos_faithful_at_endpoints 24 128 std_cos32 ->
    cos_faithful_at_endpoints 53 1024 std_cos64 ->
    (step_endpoints_approx 24 128 linearStep /\
     step_endpoints_approx 24 128 (cubicStep (A := binary32)) /\
     step_endpoints_approx 24 128 (quinticStep (A := binary32)) /\
     step_endpoints_approx 24 128 (cosineStep (A := binary32) std_cos32)) /\
    (step_endpoints_approx 53 1024 linearStep /\
     step_endpoints_approx 53 1024 (cubicStep (A := binary64)) /\
     step_endpoints_approx 53 1024 (quinticStep (A := binary64)) /\
     step_endpoints_approx 53 1024 (cosineStep (A := binary64) std_cos64)).
Proof.
  intros std_cos32 std_cos64 H32 H64. split.
  - apply steps_approx_binary32, H32.
  - apply steps_approx_binary64, H64.
Qed.

Lemma step_endpoints_witness :
  (step_endpoints_approx 24 128 linearStep /\
   step_endpoints_approx 24 128 (cubicStep (A := binary32)) /\
   step_endpoints_approx 24 128 (quinticStep (A := binary32)) /\
   step_endpoints_approx 24 128
     (cosineStep (A := binary32) (endpoint_cos 24 128))) /\
  (step_endpoints_approx 53 1024 linearStep /\
   step_endpoints_approx 53 1024 (cubicStep (A := binary64)) /\
   step_endpoints_approx 53 1024 (quinticStep (A := binary64)) /\
   step_endpoints_approx 53 1024
     (cosineStep (A := binary64) (endpoint_cos 53 1024))).
Proof.
  apply (step_endpoints (endpoint_cos 24 128) (endpoint_cos 53 1024));
    (split; [reflexivity | left; reflexivity]).
Defined.

(** ** [std::cos] at the endpoints of [cosineStep] *)

Section ExactCosine.
Local Open Scope R_scope.

(** Seventeen digits of [PI], from the series of
    [PI / 4 = 2 atan (1/3) + atan (1/7)]. *)
Lemma PI_17_digits :
  314159265358979323 / 100000000000000000 <= PI
  <= 314159265358979324 / 100000000000000000.
Proof.
  pose proof (PI_2_3_7_ineq 9) as [Hlo Hhi].
  split.
  - apply Rle_trans
      with (4 * sum_f_R0 (tg_alt PI_2_3_7_tg) (S (2 * 9))); [|lra].
    clear Hlo Hhi. unfold sum_f_R0, tg_alt, PI_2_3_7_tg, Ratan_seq.
    cbv [Nat.mul Nat.add]. rewrite !INR_IZR_INZ.
    cbv [Z.of_nat Pos.of_succ_nat Pos.succ]. lra.
  - apply Rle_trans
      with (4 * sum_f_R0 (tg_alt PI_2_3_7_tg) (2 * 9)); [lra|].
    clear Hlo Hhi. unfold sum_f_R0, tg_alt, PI_2_3_7_tg, Ratan_seq.
    cbv [Nat.mul Nat.add]. rewrite !INR_IZR_INZ.
    cbv [Z.of_nat Pos.of_succ_nat Pos.succ]. lra.
Qed.

(** Near [PI] and away from it, the cosine is above [-1] by at most half
    the square of the distance. *)
Lemma cos_near_PI (x d : R) :
  0 < Rabs (x - PI) <= d -> d * d <= 1 ->
  -1 < cos x <= -1 + d * d / 2.
Proof.
  intros [Hpos Hd] Hd1.
  set (h := x - PI) in *.
  replace x with (h + PI) by (unfold h; ring).
  rewrite neg_cos.
  assert (H0 : h <> 0) by (intros E; rewrite E, Rabs_R0 in Hpos; lra).
  assert (Hh : 0 < h * h <= d * d).
  { destruct (Rcase_abs h) as [Hn|Hp].
    - rewrite (Rabs_left h Hn) in Hd. nra.
    - rewrite (Rabs_right h Hp) in Hd. nra. }
  assert (Hr : - PI / 2 <= h <= PI / 2).
  { pose proof PI_17_digits. split; nra. }
  pose proof (cos_bound h 0 (proj1 Hr) (proj2 Hr)) as [Hlo Hhi].
  unfold cos_approx, cos_term, sum_f_R0 in Hlo, Hhi.
  simpl in Hlo, Hhi.
  split; nra.
Qed.

(** The exact cosine of the [float] nearest to [PI] lies strictly between
    [-1] and the next [float] towards zero. *)
Lemma cos_pi_binary32 :
  SF2R (SFopp (T_ (A := binary32) 1))
  < cos (SF2R (pi (A := binary32)))
  < SF2R (minus_one_up 24).
Proof.
  pose proof PI_17_digits as [Hlo Hhi].
  rewrite pi_binary32.
  change (SFopp (T_ (A := binary32) 1)) with (S754_finite true 8388608 (-23)).
  change (minus_one_up 24) with (S754_finite true 16777215 (-24)).
  unfold SF2R. cbn [cond_Zopp Z.opp].
  assert (E22 : powerRZ 2 (-22) = / 4194304) by (simpl; lra).
  assert (E23 : powerRZ 2 (-23) = / 8388608) by (simpl; lra).
  assert (E24 : powerRZ 2 (-24) = / 16777216) by (simpl; lra).
  rewrite E22, E23, E24.
  destruct (cos_near_PI (13176795 * / 4194304) (1 / 1000000)) as [H1 H2].
  - rewrite Rabs_right by lra. lra.
  - lra.
  - split; lra.
Qed.

(** The same for [double]. *)
Lemma cos_pi_binary64 :
  SF2R (SFopp (T_ (A := binary64) 1))
  < cos (SF2R (pi (A := binary64)))
  < SF2R (minus_one_up 53).
Proof.
  pose proof PI_17_digits as [Hlo Hhi].
  rewrite pi_binary64.
  change (SFopp (T_ (A := binary64) 1))
    with (S754_finite true 4503599627370496 (-52)).
  change (minus_one_up 53) with (S754_finite true 9007199254740991 (-53)).
  unfold SF2R. cbn [cond_Zopp Z.opp].
  assert (E51 : powerRZ 2 (-51) = / 2251799813685248) by (simpl; lra).
  assert (E52 : powerRZ 2 (-52) = / 4503599627370496) by (simpl; lra).
  assert (E53 : powerRZ 2 (-53) = / 9007199254740992) by (simpl; lra).
  rewrite E51, E52, E53.
  destruct (cos_near_PI (7074237752028440 * / 2251799813685248)
              (1 / 1000000000000000)) as [H1 H2].
  - rewrite Rabs_left by lra. lra.
  - lra.
  - split; lra.
Qed.
End ExactCosine.

(** The two bounds of the bracket are neighbours in the format. *)
Example minus_one_up_is_next :
  SFsucc 24 128 (SFopp (T_ (A := binary32) 1)) = minus_one_up 24 /\
  SFsucc 53 1024 (SFopp (T_ (A := binary64) 1)) = minus_one_up 53.
Proof. vm_compute. split; reflexivity. Qed.

Section BelowUlp.
Variables prec emax : Z.
Hypothesis Hprec : 2 <= prec.
Hypothesis Hemax : 4 <= emax.
Local Abbreviation F := (IEEE prec emax).
Local Open Scope R_scope.

(** A [std::cos] whose error at the two arguments is below [2^-prec]
    returns there the values that [cos_faithful_at_endpoints] lists,
    provided the exact cosine of [pi<T>()] lies between the two
    neighbours [-1] and [-(1 - 2^-prec)]. *)
Lemma below_ulp_faithful (std_cos : spec_float -> spec_float) :
  SF2R (SFopp (T_ (A := F) 1)) < cos (SF2R (pi (A := F)))
  < SF2R (minus_one_up prec) ->
  cos_error_below_ulp prec emax std_cos ->
  cos_faithful_at_endpoints prec emax std_cos.
Proof.
  intros [Hc1 Hc2] Hacc.
  destruct (gap_facts prec Hprec) as (Hu & HAu & HA2 & Hp).
  assert (HA : 0 < powerRZ 2 (1 - prec) <= / 2).
  { assert (0 < powerRZ 2 (1 - prec)) by (apply powerRZ_lt; lra).
    split; [assumption|nra]. }
  assert (Hm1 : SF2R (SFopp (T_ (A := F) 1)) = -1).
  { pose proof (SF2R_one prec emax Hprec Hemax) as H1.
    rewrite (IEEE_one prec emax Hprec ltac:(lia)) in H1 |- *.
    cbn [SFopp negb]. rewrite SF2R_finite in H1 |- *. lra. }
  rewrite Hm1 in Hc1. rewrite (SF2R_minus_one_up prec Hprec) in Hc2.
  split.
  - destruct (Hacc (S754_zero false) (or_introl Logic.eq_refl))
      as (Hf & Hv & Herr).
    cbn [SF2R] in Herr. rewrite cos_0, HA2 in Herr.
    apply Rabs_def2 in Herr. destruct Herr as [Herr1 Herr2].
    destruct (std_cos (S754_zero false)) as [s|s| |s m e];
      try discriminate Hf.
    + cbn [SF2R] in Herr1, Herr2. lra.
    + rewrite SF2R_finite in Herr1, Herr2.
      assert (Hpos : 0 < IZR (Zpos m) * powerRZ 2 e).
      { apply Rmult_lt_0_compat; [apply IZR_lt; lia|apply powerRZ_lt; lra]. }
      destruct s; [lra|].
      destruct (near_one_magnitude prec emax Hprec Hemax m e Hv)
        as [[He Hm]|[He Hm]]; [split; lra| |].
      * subst e. apply (finite_one prec emax Hprec ltac:(lia) false m Hm).
      * exfalso. subst e. rewrite Hm, minus_IZR, Hp, HA2 in Herr2. nra.
  - destruct (Hacc (pi (A := F)) (or_intror Logic.eq_refl))
      as (Hf & Hv & Herr).
    rewrite HA2 in Herr.
    apply Rabs_def2 in Herr. destruct Herr as [Herr1 Herr2].
    destruct (std_cos (pi (A := F))) as [s|s| |s m e];
      try discriminate Hf.
    + cbn [SF2R] in Herr1, Herr2. lra.
    + rewrite SF2R_finite in Herr1, Herr2.
      assert (Hpos : 0 < IZR (Zpos m) * powerRZ 2 e).
      { apply Rmult_lt_0_compat; [apply IZR_lt; lia|apply powerRZ_lt; lra]. }
      destruct s; [|lra].
      destruct (near_one_magnitude prec emax Hprec Hemax m e Hv)
        as [[He Hm]|[He Hm]]; [split; lra| |].
      * left. subst e.
        apply (finite_one prec emax Hprec ltac:(lia) true m Hm).
      * right. subst e. unfold minus_one_up. rewrite <- Hm. reflexivity.
Qed.
End BelowUlp.

(** In [float] and in [double], where the exact cosine is known to lie in
    the bracket. *)
Lemma below_ulp_faithful_binary32 (std_cos : spec_float -> spec_float) :
  cos_error_below_ulp 24 128 std_cos ->
  cos_faithful_at_endpoints 24 128 std_cos.
Proof.
  apply below_ulp_faithful; [lia | lia | exact cos_pi_binary32].
Qed.

Lemma below_ulp_faithful_binary64 (std_cos : spec_float -> spec_float) :
  cos_error_below_ulp 53 1024 std_cos ->
  cos_faithful_at_endpoints 53 1024 std_cos.
Proof.
  apply below_ulp_faithful; [lia | lia | exact cos_pi_binary64].
Qed.

(** The endpoints of the four steps again, under the accuracy of
    [std::cos] in place of its values. *)
Corollary step_endpoints_accurate_cos :
  forall std_cos32 std_cos64 : spec_float -> spec_float,
    cos_error_below_ulp 24 128 std_cos32 ->
    cos_error_below_ulp 53 1024 std_cos64 ->
    (step_endpoints_approx 24 128 linearStep /\
     step_endpoints_approx 24 128 (cubicStep (A := binary32)) /\
     step_endpoints_approx 24 128 (quinticStep (A := binary32)) /\
     step_endpoints_approx 24 128 (cosineStep (A := binary32) std_cos32)) /\
    (step_endpoints_approx 53 1024 linearStep /\
     step_endpoints_approx 53 1024 (cubicStep (A := binary64)) /\
     step_endpoints_approx 53 1024 (quinticStep (A := binary64)) /\
     step_endpoints_approx 53 1024 (cosineStep (A := binary64) std_cos64)).
Proof.
  intros std_cos32 std_cos64 H32 H64. split.
  - apply steps_approx_binary32, below_ulp_faithful_binary32, H32.
  - apply steps_approx_binary64, below_ulp_faithful_binary64, H64.
Qed.

(** The accuracy is met by a function: [endpoint_cos]. *)
Lemma endpoint_cos_below_ulp :
  cos_error_below_ulp 24 128 (endpoint_cos 24 128) /\
  cos_error_below_ulp 53 1024 (endpoint_cos 53 1024).
Proof.
  split; intros x [Hx|Hx]; subst x;
    (split; [reflexivity|]); (split; [reflexivity|]).
  - change (endpoint_cos 24 128 (S754_zero false))
      with (T_ (A := IEEE 24 128) 1).
    rewrite (SF2R_one 24 128) by lia. cbn [SF2R].
    rewrite cos_0, Rminus_diag, Rabs_R0. apply powerRZ_lt. lra.
  - change (endpoint_cos 24 128 (pi (A := IEEE 24 128)))
      with (SFopp (T_ (A := IEEE 24 128) 1)).
    pose proof cos_pi_binary32 as [H1 H2]. unfold binary32 in H1, H2.
    rewrite SF2R_opp, (SF2R_one 24 128) in H1 |- * by lia.
    rewrite (SF2R_minus_one_up 24) in H2 by lia.
    change (powerRZ 2 (- (24))) with (powerRZ 2 (1 - 24 + -1)).
    rewrite powerRZ_add by lra.
    assert (Hh : powerRZ 2 (-1) = (/ 2)%R) by (simpl; lra).
    rewrite Hh. apply Rabs_def1; lra.
  - change (endpoint_cos 53 1024 (S754_zero false))
      with (T_ (A := IEEE 53 1024) 1).
    rewrite (SF2R_one 53 1024) by lia. cbn [SF2R].
    rewrite cos_0, Rminus_diag, Rabs_R0. apply powerRZ_lt. lra.
  - change (endpoint_cos 53 1024 (pi (A := IEEE 53 1024)))
      with (SFopp (T_ (A := IEEE 53 1024) 1)).
    pose proof cos_pi_binary64 as [H1 H2]. unfold binary64 in H1, H2.
    rewrite SF2R_opp, (SF2R_one 53 1024) in H1 |- * by lia.
    rewrite (SF2R_minus_one_up 53) in H2 by lia.
    change (powerRZ 2 (- (53))) with (powerRZ 2 (1 - 53 + -1)).
    rewrite powerRZ_add by lra.
    assert (Hh : powerRZ 2 (-1) = (/ 2)%R) by (simpl; lra).
    rewrite Hh. apply Rabs_def1; lra.
Qed.

(** ** [lerp] *)

Section LerpIEEE.
Variables prec emax : Z.
Hypothesis Hprec : 2 <= prec.
Hypothesis Hemax : 2 <= emax.
Local Abbreviation F := (IEEE prec emax).

(** With [t = 0] the first product is [lhs] and the second a zero. *)
Lemma lerp_IEEE_0 (a b : spec_float) :
  is_finite a = true -> is_finite b = true ->
  valid_binary prec emax a = true ->
  eqb (Arith := F) (lerp (A := F) a b (T_ (A := F) 0)) a = true /\
  (is_zero a = false -> lerp (A := F) a b (T_ (A := F) 0) = a).
Proof.
  intros Ha Hb Va. unfold lerp. rewrite IEEE_zero. ieee_ops.
  rewrite (SFsub_one_zero prec emax Hprec Hemax),
    (SFmul_one_l prec emax Hprec Hemax a Ha Va).
  destruct a as [sa|sa| |sa ma ea]; try discriminate Ha;
    destruct b as [sb|sb| |sb mb eb]; try discriminate Hb;
    cbn [SFmul SFadd xorb is_zero]; split; intros; try discriminate;
    try reflexivity;
    try (destruct sa, sb; reflexivity);
    try (unfold SFeqb; rewrite SFcompare_refl; reflexivity).
Qed.

(** With [t = 1] the first product is a zero and the second is [rhs]. *)
Lemma lerp_IEEE_1 (a b : spec_float) :
  is_finite a = true -> is_finite b = true ->
  valid_binary prec emax b = true ->
  eqb (Arith := F) (lerp (A := F) a b (T_ (A := F) 1)) b = true /\
  (is_zero b = false -> lerp (A := F) a b (T_ (A := F) 1) = b).
Proof.
  intros Ha Hb Vb. unfold lerp. ieee_ops.
  rewrite (SFsub_one_one prec emax Hprec Hemax),
    (SFmul_one_l prec emax Hprec Hemax b Hb Vb).
  destruct a as [sa|sa| |sa ma ea]; try discriminate Ha;
    destruct b as [sb|sb| |sb mb eb]; try discriminate Hb;
    cbn [SFmul SFadd xorb is_zero]; split; intros; try discriminate;
    try reflexivity;
    try (destruct sa, sb; reflexivity);
    try (unfold SFeqb; rewrite SFcompare_refl; reflexivity).
Qed.
End LerpIEEE.

(** On the integers [lerp] is the affine map through the two values. *)
Lemma lerp_Z (a b t : Z) :
  lerp (A := Z_arith) a b 0 = a /\
  lerp (A := Z_arith) a b 1 = b /\
  lerp (A := Z_arith) a b t = a + t * (b - a).
Proof.
  unfold lerp, T_. cbn [cast add sub mul Z_arith literal_num literal_den].
  rewrite !Z.quot_1_r. repeat split; ring.
Qed.

(** On a [w]-bit unsigned type the endpoints are exact as well. *)
Lemma lerp_uint (w a b : Z) :
  0 <= a < 2 ^ w -> 0 <= b < 2 ^ w ->
  lerp (A := uint_arith w) a b (T_ (A := uint_arith w) 0) = a /\
  lerp (A := uint_arith w) a b (T_ (A := uint_arith w) 1) = b.
Proof.
  intros Ha Hb. unfold lerp, T_.
  cbn [cast add sub mul uint_arith literal_num literal_den].
  rewrite !Z.quot_1_r. unfold wrap. rewrite !Zmod_0_l.
  pose proof (eqm_setoid (2 ^ w)) as Hequiv.
  pose proof (Zplus_eqm (2 ^ w)) as Hadd.
  pose proof (Zminus_eqm (2 ^ w)) as Hsub.
  pose proof (Zmult_eqm (2 ^ w)) as Hmul.
  assert (E : forall x, eqm (2 ^ w) (x mod 2 ^ w) x) by apply Zmod_eqm.
  split.
  - transitivity (a mod 2 ^ w); [|apply Z.mod_small; lia].
    match goal with
    | |- ?X mod ?m = ?Y mod ?m => change (eqm m X Y)
    end.
    repeat (rewrite_strat (outermost E)).
    match goal with
    | |- eqm _ ?X ?Y => replace X with Y by ring
    end.
    reflexivity.
  - transitivity (b mod 2 ^ w); [|apply Z.mod_small; lia].
    match goal with
    | |- ?X mod ?m = ?Y mod ?m => change (eqm m X Y)
    end.
    repeat (rewrite_strat (outermost E)).
    match goal with
    | |- eqm _ ?X ?Y => replace X with Y by ring
    end.
    reflexivity.
Qed.

(** C2, as the specification states it, fails on an IEEE format: with
    [b] infinite, [lerp(1, b, 0)] is [1 * 1 + 0 * b], which is NaN. *)
Lemma lerp_infinite_endpoint :
  ~ (forall a b : spec_float,
        eqb (Arith := binary32)
          (lerp (A := binary32) a b (T_ (A := binary32) 0)) a = true /\
        eqb (Arith := binary32)
          (lerp (A := binary32) a b (T_ (A := binary32) 1)) b = true).
Proof.
  intros H.
  destruct (H (T_ (A := binary32) 1) (S754_infinity false)) as [H0 _].
  vm_compute in H0. discriminate H0.
Qed.

Example lerp_infinite_values :
  lerp (A := binary32) (T_ (A := binary32) 1) (S754_infinity false)
    (T_ (A := binary32) 0) = S754_nan /\
  lerp (A := binary32) (S754_infinity false) (T_ (A := binary32) 1)
    (T_ (A := binary32) 1) = S754_nan.
Proof. vm_compute. split; reflexivity. Qed.

(** C2 (amended): [lerp(a, b, t)] computes [(1 - t) * a + t * b] and does
    not clamp [t].  [lerp(a, b, 0) == a] and [lerp(a, b, 1) == b] hold for
    all [a] and [b] of an integer type and for all finite [a] and [b] of
    an IEEE format; there the returned endpoint is the very value passed
    unless it is a zero, whose sign may change. *)
Theorem lerp_endpoints :
  (forall (T : Type) (A : Arith T) (a b t : T),
      lerp a b t = ((T_ 1 - t) * a + t * b)%gf) /\
  (forall a b t : Z,
      lerp (A := Z_arith) a b 0 = a /\
      lerp (A := Z_arith) a b 1 = b /\
      lerp (A := Z_arith) a b t = a + t * (b - a)) /\
  (forall w a b : Z,
      0 <= a < 2 ^ w -> 0 <= b < 2 ^ w ->
      lerp (A := uint_arith w) a b (T_ (A := uint_arith w) 0) = a /\
      lerp (A := uint_arith w) a b (T_ (A := uint_arith w) 1) = b) /\
  (forall (prec emax : Z) (a b : spec_float),
      2 <= prec -> 2 <= emax ->
      is_finite a = true -> is_finite b = true ->
      valid_binary prec emax a = true -> valid_binary prec emax b = true ->
      eqb (Arith := IEEE prec emax)
        (lerp (A := IEEE prec emax) a b (T_ (A := IEEE prec emax) 0)) a
      = true /\
      eqb (Arith := IEEE prec emax)
        (lerp (A := IEEE prec emax) a b (T_ (A := IEEE prec emax) 1)) b
      = true /\
      (is_zero a = false ->
       lerp (A := IEEE prec emax) a b (T_ (A := IEEE prec emax) 0) = a) /\
      (is_zero b = false ->
       lerp (A := IEEE prec emax) a b (T_ (A := IEEE prec emax) 1) = b)) /\
  (lerp (A := binary32) (T_ (A := binary32) 0) (T_ (A := binary32) 10)
     (T_ (A := binary32) 2) = T_ (A := binary32) 20 /\
   lerp (A := binary32) (T_ (A := binary32) 0) (T_ (A := binary32) 10)
     (T_ (A := binary32) (-1)) = T_ (A := binary32) (-10)).
Proof.
  split; [reflexivity|]. split; [exact lerp_Z|]. split; [exact lerp_uint|].
  split; [|split; vm_compute; reflexivity].
  intros prec emax a b Hprec Hemax Ha Hb Va Vb.
  destruct (lerp_IEEE_0 prec emax Hprec Hemax a b Ha Hb Va) as [H1 H2].
  destruct (lerp_IEEE_1 prec emax Hprec Hemax a b Ha Hb Vb) as [H3 H4].
  repeat split; assumption.
Qed.

Lemma lerp_endpoints_witness :
  let a := S754_finite false 13176795 (-22) in
  let b := S754_finite true 1 (-149) in
  eqb (Arith := binary32)
    (lerp (A := binary32) a b (T_ (A := binary32) 0)) a = true /\
  eqb (Arith := binary32)
    (lerp (A := binary32) a b (T_ (A := binary32) 1)) b = true /\
  (is_zero a = false ->
   lerp (A := binary32) a b (T_ (A := binary32) 0) = a) /\
  (is_zero b = false ->
   lerp (A := binary32) a b (T_ (A := binary32) 1) = b).
Proof.
  apply (proj1 (proj2 (proj2 (proj2 lerp_endpoints))) 24 128);
    first [lia | reflexivity].
Defined.

(** ** [clamp] *)

(** On integers [clamp] is the clamp of the interval. *)
Lemma clamp_Z (val lo hi : Z) :
  lo <= hi ->
  (val < lo -> clamp (A := Z_arith) val lo hi = lo) /\
  (val > hi -> clamp (A := Z_arith) val lo hi = hi) /\
  (lo <= val <= hi -> clamp (A := Z_arith) val lo hi = val) /\
  lo <= clamp (A := Z_arith) val lo hi <= hi.
Proof.
  intros Hle. unfold clamp. cbn [ltb Z_arith].
  destruct (Z.ltb_spec val lo), (Z.ltb_spec hi val); repeat split; lia.
Qed.

(** On an IEEE format the three cases of [clamp] are those of the
    specification, for every value. *)
Lemma clamp_IEEE_cases (prec emax : Z) (val lo hi : spec_float) :
  SFleb lo hi = true ->
  (SFltb val lo = true -> clamp (A := IEEE prec emax) val lo hi = lo) /\
  (SFltb hi val = true -> clamp (A := IEEE prec emax) val lo hi = hi) /\
  (SFltb val lo = false -> SFltb hi val = false ->
   clamp (A := IEEE prec emax) val lo hi = val).
Proof.
  intros Hle. unfold clamp. ieee_ops. repeat split.
  - intros ->. reflexivity.
  - intros Hgt. rewrite Hgt.
    rewrite (SFltb_asym _ _ (SFleb_SFltb_trans _ _ _ Hle Hgt)). reflexivity.
  - intros -> ->. reflexivity.
Qed.

Lemma clamp_IEEE_between (prec emax : Z) (val lo hi : spec_float) :
  SFleb lo hi = true -> is_nan val = false ->
  SFbetween lo hi (clamp (A := IEEE prec emax) val lo hi) = true.
Proof.
  intros Hle Hval. destruct (SFleb_not_nan _ _ Hle) as [Hlo Hhi].
  unfold clamp, SFbetween. ieee_ops.
  destruct (SFltb val lo) eqn:E1.
  - rewrite SFleb_refl, Hle; auto.
  - destruct (SFltb hi val) eqn:E2.
    + rewrite SFleb_refl, Hle; auto.
    + rewrite (SFltb_false_SFleb val lo), (SFltb_false_SFleb hi val); auto.
Qed.

(** C5, as the specification states it, fails on an IEEE format: with
    [lo = 0 <= hi = 1], [clamp(NaN, 0, 1)] is NaN, which is not in the
    interval. *)
Lemma clamp_nan_not_in_range :
  ~ (forall val lo hi : spec_float,
        SFleb lo hi = true ->
        SFbetween lo hi (clamp (A := binary32) val lo hi) = true).
Proof.
  intros H.
  specialize (H S754_nan (T_ (A := binary32) 0) (T_ (A := binary32) 1)).
  vm_compute in H. specialize (H Logic.eq_refl). discriminate H.
Qed.

(** C5 (amended): for [lo <= hi], [clamp(val, lo, hi)] is [lo] when
    [val < lo], [hi] when [val > hi] and [val] otherwise; the result lies
    in the interval from [lo] to [hi] for every [val] of an integer type
    and for every [val] of an IEEE format that is not NaN. *)
Theorem clamp_in_range :
  (forall val lo hi : Z,
      lo <= hi ->
      (val < lo -> clamp (A := Z_arith) val lo hi = lo) /\
      (val > hi -> clamp (A := Z_arith) val lo hi = hi) /\
      (lo <= val <= hi -> clamp (A := Z_arith) val lo hi = val) /\
      lo <= clamp (A := Z_arith) val lo hi <= hi) /\
  (forall (prec emax : Z) (val lo hi : spec_float),
      SFleb lo hi = true ->
      (SFltb val lo = true -> clamp (A := IEEE prec emax) val lo hi = lo) /\
      (SFltb hi val = true -> clamp (A := IEEE prec emax) val lo hi = hi) /\
      (SFltb val lo = false -> SFltb hi val = false ->
       clamp (A := IEEE prec emax) val lo hi = val) /\
      (is_nan val = false ->
       SFbetween lo hi (clamp (A := IEEE prec emax) val lo hi) = true)).
Proof.
  split.
  - apply clamp_Z.
  - intros prec emax val lo hi Hle.
    destruct (clamp_IEEE_cases prec emax val lo hi Hle) as (H1 & H2 & H3).
    repeat split; auto. intros Hval. apply clamp_IEEE_between; assumption.
Qed.

Lemma clamp_in_range_witness :
  (0 <= clamp (A := Z_arith) 7 0 5 <= 5) /\
  SFbetween (T_ (A := binary32) 0) (T_ (A := binary32) 1)
    (clamp (A := binary32) (T_ (A := binary32) 2) (T_ (A := binary32) 0)
       (T_ (A := binary32) 1)) = true.
Proof.
  split.
  - apply (proj1 clamp_in_range 7 0 5). lia.
  - apply (proj2 clamp_in_range 24 128); reflexivity.
Defined.

(** ** [sign] *)

(** The value of [sign] on every value of an IEEE format. *)
Lemma sign_IEEE (prec emax : Z) (x : spec_float) :
  sign (A := IEEE prec emax) x =
  match x with
  | S754_nan | S754_zero _ => 0
  | S754_infinity s | S754_finite s _ _ => if s then -1 else 1
  end.
Proof. destruct x as [s|s| |s m e]; try destruct s; reflexivity. Qed.

(** C10: [sign(x)] is [0] for every [x] that is neither greater nor less
    than [T(0)], whatever the type [T]; for an IEEE format the two
    comparisons are false at NaN, so that [sign(NaN)] is [0], the value
    [sign] has at the zeros. *)
Theorem sign_unordered_is_zero :
  (forall (T : Type) (A : Arith T) (x : T),
      (x > T_ 0)%gf = false -> (x < T_ 0)%gf = false -> sign x = 0) /\
  (forall prec emax : Z,
      ltb (Arith := IEEE prec emax) (T_ (A := IEEE prec emax) 0) S754_nan
      = false /\
      ltb (Arith := IEEE prec emax) S754_nan (T_ (A := IEEE prec emax) 0)
      = false /\
      sign (A := IEEE prec emax) S754_nan = 0 /\
      (forall s : bool, sign (A := IEEE prec emax) (S754_zero s) = 0)).
Proof.
  split.
  - intros T A x Hgt Hlt. unfold sign. rewrite Hgt, Hlt. reflexivity.
  - intros prec emax. repeat split.
Qed.

Lemma sign_unordered_is_zero_witness :
  sign (A := binary32) S754_nan = 0.
Proof.
  apply (proj1 sign_unordered_is_zero spec_float binary32 S754_nan);
    reflexivity.
Defined.

(** The three test values of the specification. *)
Example sign_values :
  sign (A := Z_arith) (-5) = -1 /\ sign (A := Z_arith) 0 = 0 /\
  sign (A := Z_arith) 3 = 1.
Proof. repeat split. Qed.

(** ** [absdiff] *)

Lemma absdiff_Z (a b : Z) :
  absdiff (A := Z_arith) a b = Z.abs (a - b) /\
  absdiff (A := Z_arith) a b = absdiff (A := Z_arith) b a.
Proof.
  unfold absdiff. cbn [ltb sub Z_arith].
  destruct (Z.ltb_spec b a), (Z.ltb_spec a b); lia.
Qed.

(** On a [w]-bit unsigned type the subtraction that [absdiff] performs
    never wraps. *)
Lemma absdiff_uint (w a b : Z) :
  0 <= a < 2 ^ w -> 0 <= b < 2 ^ w ->
  absdiff (A := uint_arith w) a b = Z.abs (a - b) /\
  absdiff (A := uint_arith w) a b = absdiff (A := uint_arith w) b a /\
  0 <= absdiff (A := uint_arith w) a b < 2 ^ w.
Proof.
  intros Ha Hb. unfold absdiff. cbn [ltb sub uint_arith]. unfold wrap.
  destruct (Z.ltb_spec b a), (Z.ltb_spec a b);
    rewrite ?Z.mod_small by lia; lia.
Qed.

(** The plain unsigned subtraction of the larger from the smaller does
    wrap. *)
Example uint32_sub_wraps :
  sub (Arith := uint_arith 32) 3 10 = 2 ^ 32 - 7.
Proof. reflexivity. Qed.

Section AbsdiffIEEE.
Variables prec emax : Z.

(** [absdiff] of two finite values of the format. *)
Lemma absdiff_finite (sa sb : bool) (ma mb : positive) (ea eb : Z) :
  canonical_mantissa prec emax ma ea = true ->
  canonical_mantissa prec emax mb eb = true ->
  let a := S754_finite sa ma ea in
  let b := S754_finite sb mb eb in
  absdiff (A := IEEE prec emax) a b = SFabs (SFsub prec emax a b) /\
  absdiff (A := IEEE prec emax) a b = absdiff (A := IEEE prec emax) b a.
Proof.
  intros Ha Hb a b. unfold absdiff. ieee_ops. unfold SFltb, a, b.
  rewrite (SFcompare_scaled prec emax sb sa mb ma eb ea Hb Ha).
  rewrite (SFcompare_scaled prec emax sa sb ma mb ea eb Ha Hb).
  rewrite !SFsub_scaled. rewrite (Z.min_comm eb ea).
  set (za := scaled sa ma ea (Z.min ea eb)).
  set (zb := scaled sb mb eb (Z.min ea eb)).
  rewrite (Z.compare_antisym zb za).
  destruct (Z.compare_spec zb za) as [E|E|E]; cbn [CompOpp].
  - rewrite E, Z.sub_diag. split; reflexivity.
  - rewrite binary_normalize_abs_nonneg by lia. split; reflexivity.
  - replace (za - zb) with (- (zb - za)) by ring.
    rewrite binary_normalize_abs_opp, binary_normalize_abs_nonneg by lia.
    split; reflexivity.
Qed.
End AbsdiffIEEE.

(** On an IEEE format [absdiff(a, b)] is [|a - b|] and is symmetric, up to
    the sign of a zero result. *)
Lemma absdiff_IEEE (prec emax : Z) (a b : spec_float) :
  valid_binary prec emax a = true -> valid_binary prec emax b = true ->
  SFsame (absdiff (A := IEEE prec emax) a b) (SFabs (SFsub prec emax a b)) /\
  SFsame (absdiff (A := IEEE prec emax) a b)
    (absdiff (A := IEEE prec emax) b a).
Proof.
  intros Va Vb.
  destruct a as [sa|sa| |sa ma ea], b as [sb|sb| |sb mb eb];
    try (unfold SFsame, absdiff; ieee_ops;
         try destruct sa; try destruct sb; cbn;
         split; first [left; reflexivity | right; split; reflexivity]).
  cbn [valid_binary] in Va, Vb. unfold SpecFloat.bounded in Va, Vb.
  apply andb_prop in Va. apply andb_prop in Vb.
  destruct (absdiff_finite prec emax sa sb ma mb ea eb (proj1 Va) (proj1 Vb))
    as [H1 H2].
  split; left; assumption.
Qed.

(** C6: [absdiff(a, b)] is [|a - b|] and is symmetric: on the integers;
    on a [w]-bit unsigned type, where the subtraction it performs does
    not wrap, so that the result is the distance of the two integers; and
    on an IEEE format, up to the sign of a zero result.  [absdiff(3, 10)]
    and [absdiff(10, 3)] are both [7]. *)
Theorem absdiff_abs :
  (forall a b : Z,
      absdiff (A := Z_arith) a b = Z.abs (a - b) /\
      absdiff (A := Z_arith) a b = absdiff (A := Z_arith) b a) /\
  (forall w a b : Z,
      0 <= a < 2 ^ w -> 0 <= b < 2 ^ w ->
      absdiff (A := uint_arith w) a b = Z.abs (a - b) /\
      absdiff (A := uint_arith w) a b = absdiff (A := uint_arith w) b a /\
      0 <= absdiff (A := uint_arith w) a b < 2 ^ w) /\
  (forall (prec emax : Z) (a b : spec_float),
      valid_binary prec emax a = true -> valid_binary prec emax b = true ->
      SFsame (absdiff (A := IEEE prec emax) a b)
        (std_abs (Limits := IEEE_limits prec emax)
           (sub (Arith := IEEE prec emax) a b)) /\
      SFsame (absdiff (A := IEEE prec emax) a b)
        (absdiff (A := IEEE prec emax) b a)) /\
  absdiff (A := uint_arith 32) 3 10 = 7 /\
  absdiff (A := uint_arith 32) 10 3 = 7.
Proof.
  split; [exact absdiff_Z|]. split; [exact absdiff_uint|].
  split; [exact absdiff_IEEE|]. split; reflexivity.
Qed.

Lemma absdiff_abs_witness :
  (absdiff (A := uint_arith 32) 3 4294967295 = Z.abs (3 - 4294967295) /\
   absdiff (A := uint_arith 32) 3 4294967295
   = absdiff (A := uint_arith 32) 4294967295 3 /\
   0 <= absdiff (A := uint_arith 32) 3 4294967295 < 2 ^ 32) /\
  (let a := S754_finite false 13176795 (-22) in
   let b := S754_finite false 11796480 (-16) in
   SFsame (absdiff (A := binary32) a b)
     (std_abs (Limits := binary32_limits) (sub (Arith := binary32) a b)) /\
   SFsame (absdiff (A := binary32) a b) (absdiff (A := binary32) b a)).
Proof.
  split.
  - apply (proj1 (proj2 absdiff_abs) 32 3 4294967295); lia.
  - apply (proj1 (proj2 (proj2 absdiff_abs)) 24 128); reflexivity.
Defined.

(** The signs of zero that [SFsame] leaves open: [absdiff(+0, -0)] is
    [-0], while [|(+0) - (-0)|] and [absdiff(-0, +0)] are [+0]. *)
Example absdiff_zero_signs :
  absdiff (A := binary32) (S754_zero false) (S754_zero true) = S754_zero true /\
  SFabs (SFsub 24 128 (S754_zero false) (S754_zero true)) = S754_zero false /\
  absdiff (A := binary32) (S754_zero true) (S754_zero false) = S754_zero false.
Proof. vm_compute. repeat split. Qed.

(** * [gf::SystemInfo] *)

Section SystemInfoFacts.
Import ITreeNotations.
Local Open Scope itree_scope.

(** A C string followed by its null terminator and by whatever the
    memory holds after it becomes the [std::string] of the same
    characters. *)
Lemma std_string_c_string (cs rest : list ascii) :
  Forall (fun c => c <> zero) cs ->
  std_string (cs ++ zero :: rest) = string_of_list_ascii cs.
Proof.
  induction 1 as [|c cs Hc _ IH]; simpl.
  - reflexivity.
  - destruct (Ascii.eqb_spec c zero) as [E|_]; [contradiction|].
    rewrite IH. reflexivity.
Qed.

(** Each member is the tree of one SDL call. *)
Lemma getPlatformName_tree :
  SystemInfo.getPlatformName
  ≅ ITree.map std_string (ITree.trigger SDL_GetPlatform).
Proof. reflexivity. Qed.

Lemma getCpuCacheLineSize_tree :
  SystemInfo.getCpuCacheLineSize ≅ ITree.trigger SDL_GetCPUCacheLineSize.
Proof. unfold SystemInfo.getCpuCacheLineSize. apply bind_ret_r. Qed.

Lemma getCpuCount_tree :
  SystemInfo.getCpuCount ≅ ITree.trigger SDL_GetCPUCount.
Proof. unfold SystemInfo.getCpuCount. apply bind_ret_r. Qed.

Lemma getSystemRamSize_tree :
  SystemInfo.getSystemRamSize ≅ ITree.trigger SDL_GetSystemRAM.
Proof. unfold SystemInfo.getSystemRamSize. apply bind_ret_r. Qed.

(** The run of one SDL call against an implementation. *)
Lemma run_trigger {S R : Type} (impl : SDL_impl S) (e : SDL R) (s : S) :
  run impl (ITree.trigger e) s ≈ Ret (impl R e s).
Proof.
  unfold run. rewrite interp_state_trigger. reflexivity.
Qed.

Lemma run_int_member {S : Type} (impl : SDL_impl S) (e : SDL Z) (s : S) :
  run impl (n <- trigger e ;; Ret n) s ≈ Ret (impl Z e s).
Proof.
  unfold run. rewrite interp_state_bind, interp_state_trigger.
  unfold SDL_handler at 1. rewrite bind_ret_l. rewrite interp_state_ret.
  change (subevent Z e) with e.
  destruct (impl Z e s). reflexivity.
Qed.

Lemma run_getPlatformName {S : Type} (impl : SDL_impl S) (s : S) :
  run impl SystemInfo.getPlatformName s
  ≈ Ret (fst (impl _ SDL_GetPlatform s),
         std_string (snd (impl _ SDL_GetPlatform s))).
Proof.
  unfold run, SystemInfo.getPlatformName.
  rewrite interp_state_bind, interp_state_trigger.
  unfold SDL_handler at 1. rewrite bind_ret_l. rewrite interp_state_ret.
  reflexivity.
Qed.

(** Nothing is cached: a second call asks the library again, in the state
    the first call left. *)
Lemma run_getCpuCount_twice {S : Type} (impl : SDL_impl S) (s : S) :
  run impl (SystemInfo.getCpuCount ;; SystemInfo.getCpuCount) s
  ≈ Ret (impl Z SDL_GetCPUCount (fst (impl Z SDL_GetCPUCount s))).
Proof.
  unfold run. rewrite interp_state_bind.
  fold (run impl SystemInfo.getCpuCount s).
  unfold SystemInfo.getCpuCount at 1. rewrite run_int_member.
  rewrite bind_ret_l. cbn.
  fold (run impl SystemInfo.getCpuCount (fst (impl Z SDL_GetCPUCount s))).
  unfold SystemInfo.getCpuCount. apply run_int_member.
Qed.
End SystemInfoFacts.

(** C9: each of the four members of [SystemInfo] is the tree of one call
    of the matching SDL function, and, run against any implementation of
    SDL in any state, it answers what that call answers there and leaves
    the state that call leaves; [getPlatformName] answers the C string it
    received as a [std::string]. *)
Theorem SystemInfo_delegates :
  (eq_itree Logic.eq SystemInfo.getPlatformName
     (ITree.map std_string (ITree.trigger SDL_GetPlatform)) /\
   eq_itree Logic.eq SystemInfo.getCpuCacheLineSize
     (ITree.trigger SDL_GetCPUCacheLineSize) /\
   eq_itree Logic.eq SystemInfo.getCpuCount
     (ITree.trigger SDL_GetCPUCount) /\
   eq_itree Logic.eq SystemInfo.getSystemRamSize
     (ITree.trigger SDL_GetSystemRAM)) /\
  (forall (S : Type) (impl : SDL_impl S) (s : S),
      eutt Logic.eq (run impl SystemInfo.getPlatformName s)
        (Ret (fst (impl _ SDL_GetPlatform s),
              std_string (snd (impl _ SDL_GetPlatform s)))) /\
      eutt Logic.eq (run impl SystemInfo.getCpuCacheLineSize s)
        (Ret (impl Z SDL_GetCPUCacheLineSize s)) /\
      eutt Logic.eq (run impl SystemInfo.getCpuCount s)
        (Ret (impl Z SDL_GetCPUCount s)) /\
      eutt Logic.eq (run impl SystemInfo.getSystemRamSize s)
        (Ret (impl Z SDL_GetSystemRAM s))) /\
  (forall cs rest : list ascii,
      Forall (fun c => c <> zero) cs ->
      std_string (cs ++ zero :: rest) = string_of_list_ascii cs).
Proof.
  split; [|split].
  - split; [apply getPlatformName_tree|].
    split; [apply getCpuCacheLineSize_tree|].
    split; [apply getCpuCount_tree | apply getSystemRamSize_tree].
  - intros S impl s.
    split; [apply run_getPlatformName|].
    repeat split; apply run_int_member.
  - apply std_string_c_string.
Qed.


(** * Further properties of [gf/Math.h] *)

(** ** Symmetries of the operations of [SpecFloat] *)

Section SFSymmetry.
Variables prec emax : Z.

Lemma SFeqb_sym (x y : spec_float) : SFeqb x y = SFeqb y x.
Proof.
  unfold SFeqb. rewrite (SFcompare_swap y x).
  destruct (SFcompare y x) as [[ | | ]|]; reflexivity.
Qed.

Lemma SFadd_comm (x y : spec_float) :
  SFadd prec emax x y = SFadd prec emax y x.
Proof.
  destruct x as [sx|sx| |sx mx ex], y as [sy|sy| |sy my ey];
    try reflexivity; try (destruct sx, sy; reflexivity).
  cbn [SFadd]. rewrite (Z.min_comm ey ex), Z.add_comm. reflexivity.
Qed.

(** The magnitude of a difference does not depend on the order of the
    operands. *)
Lemma SFabs_SFsub_swap (x y : spec_float) :
  SFabs (SFsub prec emax x y) = SFabs (SFsub prec emax y x).
Proof.
  destruct x as [sx|sx| |sx mx ex], y as [sy|sy| |sy my ey];
    try reflexivity; try (destruct sx, sy; reflexivity).
  rewrite !SFsub_scaled, (Z.min_comm ey ex).
  set (zx := scaled sx mx ex (Z.min ex ey)).
  set (zy := scaled sy my ey (Z.min ex ey)).
  replace (zy - zx) with (- (zx - zy)) by ring.
  symmetry. apply binary_normalize_abs_opp.
Qed.

(** The sign given to [binary_round_aux] is the sign of its result. *)
Lemma binary_round_aux_negb (s : bool) (m e : Z) (l : location) :
  binary_round_aux prec emax (negb s) m e l
  = SFopp (binary_round_aux prec emax s m e l).
Proof.
  unfold binary_round_aux.
  destruct (shr_fexp prec emax m e l) as [mrs' e'].
  destruct (shr_fexp prec emax _ e' loc_Exact) as [mrs'' e''].
  destruct (shr_m mrs'') as [|p|p]; try reflexivity.
  destruct (e'' <=? emax - prec); reflexivity.
Qed.

(** Changing the sign of a factor, of a dividend or of a divisor changes
    the sign of the result and nothing else: rounding to nearest is
    symmetric. *)
Lemma SFmul_opp_l (x y : spec_float) :
  SFmul prec emax (SFopp x) y = SFopp (SFmul prec emax x y).
Proof.
  destruct x as [sx|sx| |sx mx ex], y as [sy|sy| |sy my ey];
    try reflexivity; try (destruct sx, sy; reflexivity).
  cbn [SFmul SFopp].
  replace (xorb (negb sx) sy) with (negb (xorb sx sy))
    by (destruct sx, sy; reflexivity).
  apply binary_round_aux_negb.
Qed.

Lemma SFmul_opp_r (x y : spec_float) :
  SFmul prec emax x (SFopp y) = SFopp (SFmul prec emax x y).
Proof.
  destruct x as [sx|sx| |sx mx ex], y as [sy|sy| |sy my ey];
    try reflexivity; try (destruct sx, sy; reflexivity).
  cbn [SFmul SFopp].
  replace (xorb sx (negb sy)) with (negb (xorb sx sy))
    by (destruct sx, sy; reflexivity).
  apply binary_round_aux_negb.
Qed.

Lemma SFdiv_opp_l (x y : spec_float) :
  SFdiv prec emax (SFopp x) y = SFopp (SFdiv prec emax x y).
Proof.
  destruct x as [sx|sx| |sx mx ex], y as [sy|sy| |sy my ey];
    try reflexivity; try (destruct sx, sy; reflexivity).
  cbn [SFdiv SFopp].
  destruct (SFdiv_core_binary prec emax (Zpos mx) ex (Zpos my) ey)
    as [[mz ez] lz].
  replace (xorb (negb sx) sy) with (negb (xorb sx sy))
    by (destruct sx, sy; reflexivity).
  apply binary_round_aux_negb.
Qed.

Lemma SFopp_involutive (x : spec_float) : SFopp (SFopp x) = x.
Proof. destruct x as [s|s| |s m e]; cbn [SFopp]; rewrite ?negb_involutive; reflexivity. Qed.

End SFSymmetry.

(** ** [almostEquals] as a relation *)

Section AlmostEqualsRelation.
Variables prec emax : Z.
Local Abbreviation F := (IEEE prec emax).
Local Abbreviation L := (IEEE_limits prec emax).

Lemma almostEquals_swap (a b epsilon : spec_float) :
  almostEquals (A := F) (L := L) a b epsilon
  = almostEquals (A := F) (L := L) b a epsilon.
Proof.
  unfold almostEquals. ieee_ops.
  rewrite (SFeqb_sym a b), (SFabs_SFsub_swap prec emax a b).
  rewrite (SFadd_comm prec emax (SFabs a) (SFabs b)).
  rewrite (orb_comm (SFeqb a (T_ (A := F) 0)) (SFeqb b (T_ (A := F) 0))).
  reflexivity.
Qed.

(** On an IEEE format the order of the two compared values does not
    matter, and a value is approximately equal to itself exactly when it
    is not NaN, whatever the tolerance. *)
Theorem almostEquals_sym (a b epsilon : spec_float) :
  almostEquals (A := F) (L := L) a b epsilon
  = almostEquals (A := F) (L := L) b a epsilon /\
  almostEquals (A := F) (L := L) a a epsilon = negb (is_nan a).
Proof.
  split; [apply almostEquals_swap|].
  destruct (is_nan a) eqn:E.
  - destruct a; try discriminate E. apply almostEquals_nan_l.
  - apply almostEquals_refl, E.
Qed.

Lemma SFltb_infinity_l (x : spec_float) :
  SFltb (S754_infinity false) x = false.
Proof. destruct x as [s|s| |s m e]; try destruct s; reflexivity. Qed.

Lemma SFltb_abs_zero (x : spec_float) :
  SFltb (SFabs x) (S754_zero false) = false.
Proof. destruct x as [s|s| |s m e]; reflexivity. Qed.

(** An infinity is approximately equal to itself and to nothing else,
    whatever the tolerance. *)
Theorem almostEquals_infinity (s : bool) (b epsilon : spec_float) :
  almostEquals (A := F) (L := L) (S754_infinity s) b epsilon
  = match b with
    | S754_infinity s' => Bool.eqb s s'
    | _ => false
    end.
Proof.
  destruct b as [sb|sb| |sb mb eb]; [| |apply almostEquals_nan_r|];
    unfold almostEquals; ieee_ops; rewrite IEEE_zero; unfold SFmax_float.
  - destruct s, sb; cbn; apply SFltb_infinity_l.
  - destruct s, sb; cbn; try reflexivity; apply SFltb_infinity_l.
  - destruct s, sb; cbn; apply SFltb_infinity_l.
Qed.

End AlmostEqualsRelation.

(** With the default tolerance the bound of the branch taken next to
    zero, [epsilon * denorm_min], rounds to zero. *)
Lemma default_bound_is_zero :
  mul (Arith := binary32)
    (numeric_limits_epsilon (Limits := binary32_limits))
    (numeric_limits_denorm_min (Limits := binary32_limits))
  = S754_zero false /\
  mul (Arith := binary64)
    (numeric_limits_epsilon (Limits := binary64_limits))
    (numeric_limits_denorm_min (Limits := binary64_limits))
  = S754_zero false.
Proof. vm_compute. split; reflexivity. Qed.

Lemma almostEquals_zero_bound
    (prec emax : Z) (a epsilon : spec_float) (s : bool) :
  is_zero a = false ->
  mul (Arith := IEEE prec emax) epsilon
    (numeric_limits_denorm_min (Limits := IEEE_limits prec emax))
  = S754_zero false ->
  almostEquals (A := IEEE prec emax) (L := IEEE_limits prec emax)
    a (S754_zero s) epsilon = false.
Proof.
  intros Ha Hm. unfold almostEquals. rewrite Hm. ieee_ops. rewrite IEEE_zero.
  replace (SFeqb a (S754_zero s)) with false
    by (destruct a as [sa|sa| |sa ma ea]; try discriminate Ha;
        try destruct sa; reflexivity).
  replace (SFeqb (S754_zero s) (S754_zero false)) with true by reflexivity.
  rewrite orb_true_r. cbn [orb]. apply SFltb_abs_zero.
Qed.

(** With the default tolerance, in [float] and in [double], no value
    other than a zero is approximately equal to a zero. *)
Theorem almostEquals_default_zero :
  forall (a : spec_float) (s : bool),
    is_zero a = false ->
    almostEquals_default (A := binary32) (L := binary32_limits)
      a (S754_zero s) = false /\
    almostEquals_default (A := binary32) (L := binary32_limits)
      (S754_zero s) a = false /\
    almostEquals_default (A := binary64) (L := binary64_limits)
      a (S754_zero s) = false /\
    almostEquals_default (A := binary64) (L := binary64_limits)
      (S754_zero s) a = false.
Proof.
  intros a s Ha. unfold almostEquals_default.
  rewrite (almostEquals_swap 24 128 (S754_zero s) a).
  rewrite (almostEquals_swap 53 1024 (S754_zero s) a).
  repeat split; apply almostEquals_zero_bound;
    first [exact Ha | apply default_bound_is_zero].
Qed.

Lemma almostEquals_default_zero_witness :
  almostEquals_default (A := binary32) (L := binary32_limits)
    (S754_finite false 1 (-149)) (S754_zero false) = false /\
  almostEquals_default (A := binary32) (L := binary32_limits)
    (S754_zero false) (S754_finite false 1 (-149)) = false /\
  almostEquals_default (A := binary64) (L := binary64_limits)
    (S754_finite false 1 (-149)) (S754_zero false) = false /\
  almostEquals_default (A := binary64) (L := binary64_limits)
    (S754_zero false) (S754_finite false 1 (-149)) = false.
Proof.
  apply (almostEquals_default_zero (S754_finite false 1 (-149)) false).
  reflexivity.
Defined.

(** [almostEquals] is not transitive: [1] and its second successor are
    each approximately equal to the value between them and not to each
    other. *)
Theorem almostEquals_not_transitive :
  ~ (forall a b c : spec_float,
        approx 24 128 a b -> approx 24 128 b c -> approx 24 128 a c).
Proof.
  intros H.
  specialize (H (S754_finite false 8388608 (-23))
                (S754_finite false 8388609 (-23))
                (S754_finite false 8388611 (-23))).
  unfold approx in H. vm_compute in H.
  specialize (H Logic.eq_refl Logic.eq_refl). discriminate H.
Qed.

(** On a signed integer type, where [epsilon()] is zero, [almostEquals]
    with the default tolerance is equality. *)
Theorem almostEquals_default_int (w a b : Z) :
  2 <= w ->
  almostEquals_default (A := Z_arith) (L := int_limits w) a b = Z.eqb a b.
Proof.
  intros Hw. unfold almostEquals_default, almostEquals.
  cbn [eqb ltb add sub mul div Z_arith std_abs numeric_limits_epsilon
       numeric_limits_denorm_min numeric_limits_max int_limits].
  destruct (Z.eqb a b); [reflexivity|].
  assert (Hmax : 0 <= 2 ^ (w - 1) - 1).
  { assert (2 ^ 0 <= 2 ^ (w - 1)) by (apply Z.pow_le_mono_r; lia).
    change (2 ^ 0) with 1 in *. lia. }
  destruct (_ || _).
  - apply Z.ltb_ge. lia.
  - apply Z.ltb_ge.
    set (d := if Z.abs a + Z.abs b <? 2 ^ (w - 1) - 1
              then Z.abs a + Z.abs b else 2 ^ (w - 1) - 1).
    assert (Hd : 0 <= d)
      by (unfold d;
          destruct (Z.ltb_spec (Z.abs a + Z.abs b) (2 ^ (w - 1) - 1)); lia).
    destruct (Z.eq_dec d 0) as [E|E].
    + rewrite E, Z.quot_0_r_ext by reflexivity. lia.
    + apply Z.quot_pos; lia.
Qed.

Lemma almostEquals_default_int_witness :
  almostEquals_default (A := Z_arith) (L := int_limits 32) 1000000 1000001
  = Z.eqb 1000000 1000001.
Proof. apply (almostEquals_default_int 32 1000000 1000001). lia. Defined.

(** ** [clamp] beyond its interval *)

(** On integers [clamp] is the maximum of [lo] and of the minimum of
    [val] and [hi]; it is monotone in [val] and clamping twice changes
    nothing. *)
Theorem clamp_Z_max_min (val val' lo hi : Z) :
  lo <= hi ->
  clamp (A := Z_arith) val lo hi = Z.max lo (Z.min val hi) /\
  clamp (A := Z_arith) (clamp (A := Z_arith) val lo hi) lo hi
  = clamp (A := Z_arith) val lo hi /\
  (val <= val' ->
   clamp (A := Z_arith) val lo hi <= clamp (A := Z_arith) val' lo hi).
Proof.
  intros H. unfold clamp. cbn [ltb Z_arith].
  repeat split; intros;
    repeat match goal with
           | |- context [Z.ltb ?x ?y] => destruct (Z.ltb_spec x y)
           end; lia.
Qed.

Lemma clamp_Z_max_min_witness :
  clamp (A := Z_arith) 7 0 5 = Z.max 0 (Z.min 7 5) /\
  clamp (A := Z_arith) (clamp (A := Z_arith) 7 0 5) 0 5
  = clamp (A := Z_arith) 7 0 5 /\
  (7 <= 9 -> clamp (A := Z_arith) 7 0 5 <= clamp (A := Z_arith) 9 0 5).
Proof. apply (clamp_Z_max_min 7 9 0 5). lia. Defined.

(** With the bounds in the wrong order the result is one of the two
    bounds, never [val]: [lo] below [lo], [hi] from [lo] on. *)
Theorem clamp_Z_crossed (val lo hi : Z) :
  hi < lo ->
  clamp (A := Z_arith) val lo hi = if val <? lo then lo else hi.
Proof.
  intros H. unfold clamp. cbn [ltb Z_arith].
  destruct (Z.ltb_spec val lo); [reflexivity|].
  destruct (Z.ltb_spec hi val); [reflexivity|lia].
Qed.

Lemma clamp_Z_crossed_witness :
  clamp (A := Z_arith) 3 5 1 = if 3 <? 5 then 5 else 1.
Proof. apply (clamp_Z_crossed 3 5 1). lia. Defined.

(** On an IEEE format clamping twice changes nothing, for every value,
    NaN included. *)
Theorem clamp_IEEE_idempotent (prec emax : Z) (val lo hi : spec_float) :
  SFleb lo hi = true ->
  clamp (A := IEEE prec emax) (clamp (A := IEEE prec emax) val lo hi) lo hi
  = clamp (A := IEEE prec emax) val lo hi.
Proof.
  intros Hle. destruct (SFleb_not_nan _ _ Hle) as [Hlo Hhi].
  assert (Hhl : SFltb hi lo = false).
  { unfold SFltb, SFleb in *. rewrite (SFcompare_swap lo hi).
    destruct (SFcompare lo hi) as [[ | | ]|]; try discriminate Hle;
      reflexivity. }
  assert (Hll : SFltb lo lo = false)
    by (unfold SFltb; rewrite SFcompare_refl by exact Hlo; reflexivity).
  assert (Hhh : SFltb hi hi = false)
    by (unfold SFltb; rewrite SFcompare_refl by exact Hhi; reflexivity).
  unfold clamp. ieee_ops.
  destruct (SFltb val lo) eqn:E1.
  - rewrite Hll, Hhl. reflexivity.
  - destruct (SFltb hi val) eqn:E2.
    + rewrite Hhl, Hhh. reflexivity.
    + rewrite E1, E2. reflexivity.
Qed.

Lemma clamp_IEEE_idempotent_witness :
  clamp (A := binary32)
    (clamp (A := binary32) S754_nan (S754_zero false)
       (S754_finite false 8388608 (-23)))
    (S754_zero false) (S754_finite false 8388608 (-23))
  = clamp (A := binary32) S754_nan (S754_zero false)
      (S754_finite false 8388608 (-23)).
Proof. apply (clamp_IEEE_idempotent 24 128). reflexivity. Defined.

(** A bound that is NaN is not a bound: [clamp] then limits [val] on the
    other side only. *)
Lemma clamp_IEEE_nan_bound (prec emax : Z) (val lo hi : spec_float) :
  clamp (A := IEEE prec emax) val S754_nan hi
  = (if SFltb hi val then hi else val) /\
  clamp (A := IEEE prec emax) val lo S754_nan
  = (if SFltb val lo then lo else val).
Proof.
  unfold clamp. ieee_ops. rewrite SFltb_nan_r.
  change (SFltb S754_nan val) with false. split; reflexivity.
Qed.

(** ** [sign], [square] and [cube] *)

Lemma sign_Z (z : Z) : sign (A := Z_arith) z = Z.sgn z.
Proof.
  unfold sign, T_. cbn [cast ltb Z_arith literal_num literal_den].
  change (Z.quot 0 1) with 0.
  destruct (Z.ltb_spec 0 z), (Z.ltb_spec z 0); cbn [Z.b2z]; lia.
Qed.

(** On integers [sign] is the sign function [Z.sgn]: it is
    multiplicative, and a number is its sign times its distance to
    zero. *)
Theorem sign_Z_sgn (x y : Z) :
  sign (A := Z_arith) x = Z.sgn x /\
  sign (A := Z_arith) (x * y) = sign (A := Z_arith) x * sign (A := Z_arith) y /\
  x = sign (A := Z_arith) x * absdiff (A := Z_arith) x 0.
Proof.
  rewrite !sign_Z. split; [reflexivity|]. split; [apply Z.sgn_mul|].
  destruct (absdiff_Z x 0) as [Ha _]. rewrite Ha, Z.sub_0_r.
  rewrite Z.mul_comm. symmetry. apply Z.abs_sgn.
Qed.

(** On an IEEE format [sign] is [0] at the two zeros and at NaN, and at
    every other value, finite or infinite, [-1] when the sign bit is set
    and [1] when it is clear.  Hence it takes the values [-1], [0] and
    [1] only, is [0] exactly at the zeros and at NaN, and changes sign
    with its argument. *)
Theorem sign_IEEE_odd (prec emax : Z) (x : spec_float) :
  sign (A := IEEE prec emax) x
  = (if is_zero x || is_nan x then 0
     else if sign_bit x then -1 else 1) /\
  (forall s : bool,
      sign (A := IEEE prec emax) (S754_infinity s) = if s then -1 else 1) /\
  (sign (A := IEEE prec emax) x = -1 \/ sign (A := IEEE prec emax) x = 0 \/
   sign (A := IEEE prec emax) x = 1) /\
  (sign (A := IEEE prec emax) x = 0 <-> is_zero x = true \/ is_nan x = true) /\
  sign (A := IEEE prec emax) (neg (Arith := IEEE prec emax) x)
  = - sign (A := IEEE prec emax) x.
Proof.
  cbn [neg IEEE]. rewrite !sign_IEEE.
  split; [|split; [intros s; destruct s; reflexivity|]].
  - destruct x as [s|s| |s m e]; reflexivity.
  - destruct x as [s|s| |s m e]; try destruct s;
      cbn [SFopp negb is_zero is_nan];
      repeat split; auto; try lia; try discriminate;
      try (intros [H|H]; discriminate H).
Qed.

Section SquareCube.
Variables prec emax : Z.
Local Abbreviation F := (IEEE prec emax).

Lemma binary_round_aux_not_negative (m e : Z) (l : location) :
  SFltb (binary_round_aux prec emax false m e l) (S754_zero false) = false.
Proof.
  unfold binary_round_aux.
  destruct (shr_fexp prec emax m e l) as [mrs' e'].
  destruct (shr_fexp prec emax _ e' loc_Exact) as [mrs'' e''].
  destruct (shr_m mrs'') as [|p|p]; try reflexivity.
  destruct (e'' <=? emax - prec); reflexivity.
Qed.

(** Under rounding [square] stays an even function that is never
    negative, and [cube] an odd function, NaN and the infinities
    included. *)
Theorem square_even_cube_odd (x : spec_float) :
  square (A := F) (neg (Arith := F) x) = square (A := F) x /\
  ltb (Arith := F) (square (A := F) x) (T_ (A := F) 0) = false /\
  cube (A := F) (neg (Arith := F) x) = neg (Arith := F) (cube (A := F) x).
Proof.
  unfold square, cube. ieee_ops. rewrite IEEE_zero.
  repeat first [rewrite SFmul_opp_l | rewrite SFmul_opp_r
               | rewrite SFopp_involutive].
  split; [reflexivity|]. split; [|reflexivity].
  destruct x as [s|s| |s m e]; cbn [SFmul]; rewrite ?xorb_nilpotent;
    try reflexivity.
  apply binary_round_aux_not_negative.
Qed.

End SquareCube.

(** On integers a square is not negative and is zero only at zero, and
    the cube keeps the sign of its argument. *)
Theorem square_cube_Z (x : Z) :
  0 <= square (A := Z_arith) x /\
  (square (A := Z_arith) x = 0 <-> x = 0) /\
  cube (A := Z_arith) x = x * square (A := Z_arith) x /\
  sign (A := Z_arith) (cube (A := Z_arith) x) = sign (A := Z_arith) x.
Proof.
  rewrite !sign_Z.
  unfold square, cube. cbn [mul Z_arith].
  rewrite !Z.sgn_mul.
  repeat split; nia.
Qed.

(** ** The constants *)

Section ConstantsAndReals.
Local Open Scope R_scope.

Lemma sqrt_bracket (a b x : R) :
  0 <= a -> 0 <= b -> a * a <= x <= b * b -> a <= sqrt x <= b.
Proof.
  intros Ha Hb [H1 H2]. split.
  - rewrite <- (sqrt_square a Ha). apply sqrt_le_1_alt, H1.
  - rewrite <- (sqrt_square b Hb). apply sqrt_le_1_alt, H2.
Qed.

Lemma sqrt2_bracket :
  11863283 / 8388608 <= sqrt 2 <= 47453133 / 33554432.
Proof. apply sqrt_bracket; lra. Qed.

Lemma sqrt3_bracket :
  14529495 / 8388608 <= sqrt 3 <= 116235963 / 67108864.
Proof. apply sqrt_bracket; lra. Qed.

Lemma inv_sqrt2 : / sqrt 2 = sqrt 2 / 2.
Proof.
  pose proof sqrt2_bracket as [H _].
  assert (Hs : sqrt 2 * sqrt 2 = 2) by (apply sqrt_sqrt; lra).
  apply Rmult_eq_reg_l with (sqrt 2); [|lra].
  rewrite Rinv_r by lra. lra.
Qed.

(** Each constant of the header is the value of its format nearest to
    the real number it is named after: its distance to that number is
    below half the gap between two neighbours of the format there.  The
    divisions by [2] and [4] are exact, and [InvSqrt2] is exactly half of
    [Sqrt2]. *)
Theorem constants_nearest :
  (Rabs (SF2R Pi - PI) < powerRZ 2 (-23) /\
   Rabs (SF2R (pi (A := binary64)) - PI) < powerRZ 2 (-52)) /\
  (SF2R Pi2 = SF2R Pi / 2 /\ SF2R Pi4 = SF2R Pi / 4 /\
   Rabs (SF2R Pi3 - PI / 3) < powerRZ 2 (-24) /\
   Rabs (SF2R Pi6 - PI / 6) < powerRZ 2 (-25)) /\
  (Rabs (SF2R Sqrt2 - sqrt 2) < powerRZ 2 (-24) /\
   Rabs (SF2R Sqrt3 - sqrt 3) < powerRZ 2 (-24) /\
   SF2R InvSqrt2 = SF2R Sqrt2 / 2 /\
   Rabs (SF2R InvSqrt2 - / sqrt 2) < powerRZ 2 (-25)).
Proof.
  pose proof PI_17_digits as [Hlo Hhi].
  pose proof sqrt2_bracket as [H2lo H2hi].
  pose proof sqrt3_bracket as [H3lo H3hi].
  rewrite inv_sqrt2.
  change Pi with (S754_finite false 13176795 (-22)).
  change (pi (A := binary64))
    with (S754_finite false 7074237752028440 (-51)).
  change Pi2 with (S754_finite false 13176795 (-23)).
  change Pi3 with (S754_finite false 8784530 (-23)).
  change Pi4 with (S754_finite false 13176795 (-24)).
  change Pi6 with (S754_finite false 8784530 (-24)).
  change Sqrt2 with (S754_finite false 11863283 (-23)).
  change Sqrt3 with (S754_finite false 14529495 (-23)).
  change InvSqrt2 with (S754_finite false 11863283 (-24)).
  unfold SF2R. cbn [cond_Zopp].
  assert (E22 : powerRZ 2 (-22) = / 4194304) by (simpl; lra).
  assert (E23 : powerRZ 2 (-23) = / 8388608) by (simpl; lra).
  assert (E24 : powerRZ 2 (-24) = / 16777216) by (simpl; lra).
  assert (E25 : powerRZ 2 (-25) = / 33554432) by (simpl; lra).
  assert (E51 : powerRZ 2 (-51) = / 2251799813685248) by (simpl; lra).
  assert (E52 : powerRZ 2 (-52) = / 4503599627370496) by (simpl; lra).
  rewrite E22, E23, E24, E25, E51, E52.
  repeat split; try lra; apply Rabs_def1; lra.
Qed.

End ConstantsAndReals.

(** ** The steps and [lerp] in exact arithmetic *)

Section StepsOverReals.
Local Open Scope R_scope.

Lemma cubicStep_R (t : R) :
  cubicStep (A := R_arith) t = (3 - 2 * t) * t * t.
Proof. unfold cubicStep, T_. cbn [cast add mul neg R_arith]. ring. Qed.

Lemma quinticStep_R (t : R) :
  quinticStep (A := R_arith) t = ((6 * t - 15) * t + 10) * t * t * t.
Proof. unfold quinticStep, T_. cbn [cast add sub mul R_arith]. ring. Qed.

Lemma cosineStep_R (t : R) :
  cosineStep (A := R_arith) cos t = (1 - cos (pi (A := R_arith) * t)) / 2.
Proof.
  unfold cosineStep, T_. cbn [cast sub mul R_arith].
  change (IZR (10 ^ Z.of_nat 1)) with 10. field.
Qed.

Lemma lerp_R (a b t : R) : lerp (A := R_arith) a b t = a + t * (b - a).
Proof. unfold lerp, T_. cbn [cast add sub mul R_arith]. ring. Qed.

Lemma steps_R_range (t : R) :
  0 <= t <= 1 ->
  0 <= cubicStep (A := R_arith) t <= 1 /\
  0 <= quinticStep (A := R_arith) t <= 1.
Proof.
  intros [H0 H1]. rewrite !cubicStep_R, !quinticStep_R.
  assert (Ht2 : 0 <= t * t) by nra.
  assert (Hu2 : 0 <= (1 - t) * (1 - t)) by nra.
  assert (Hq : 0 < (6 * t - 15) * t + 10) by nra.
  assert (Hq' : 0 < (6 * (1 - t) - 15) * (1 - t) + 10) by nra.
  assert (Hsym : ((6 * t - 15) * t + 10) * t * t * t
                 = 1 - ((6 * (1 - t) - 15) * (1 - t) + 10)
                       * ((1 - t) * (1 - t)) * (1 - t)) by ring.
  repeat split.
  - apply Rmult_le_pos; [apply Rmult_le_pos|]; lra.
  - replace ((3 - 2 * t) * t * t)
      with (1 - (1 + 2 * t) * ((1 - t) * (1 - t))) by ring.
    assert (0 <= (1 + 2 * t) * ((1 - t) * (1 - t)))
      by (apply Rmult_le_pos; lra).
    lra.
  - replace (((6 * t - 15) * t + 10) * t * t * t)
      with (((6 * t - 15) * t + 10) * (t * t) * t) by ring.
    apply Rmult_le_pos; [apply Rmult_le_pos|]; lra.
  - rewrite Hsym.
    assert (0 <= ((6 * (1 - t) - 15) * (1 - t) + 10)
                 * ((1 - t) * (1 - t)) * (1 - t))
      by (apply Rmult_le_pos; [apply Rmult_le_pos|]; lra).
    lra.
Qed.

(** In exact arithmetic [cubicStep] and [quinticStep] map the unit
    interval into itself and are symmetric about its centre:
    [f(1 - t) = 1 - f(t)]. *)
Theorem steps_R_unit_interval (t : R) :
  0 <= t <= 1 ->
  (0 <= cubicStep (A := R_arith) t <= 1 /\
   0 <= quinticStep (A := R_arith) t <= 1) /\
  cubicStep (A := R_arith) (1 - t) = 1 - cubicStep (A := R_arith) t /\
  quinticStep (A := R_arith) (1 - t) = 1 - quinticStep (A := R_arith) t.
Proof.
  intros Ht. split; [apply steps_R_range, Ht|].
  rewrite !cubicStep_R, !quinticStep_R. split; ring.
Qed.

Lemma steps_R_unit_interval_witness :
  0 <= 1 / 4 <= 1 /\
  cubicStep (A := R_arith) (1 - 1 / 4)
  = 1 - cubicStep (A := R_arith) (1 / 4).
Proof.
  split; [lra|].
  apply (steps_R_unit_interval (1 / 4)). lra.
Defined.

Lemma derivable_pt_lim_eq (f : R -> R) (x l l' : R) :
  l = l' -> derivable_pt_lim f x l -> derivable_pt_lim f x l'.
Proof. intros ->. exact (fun H => H). Qed.

Ltac derive_polynomial :=
  eapply derivable_pt_lim_eq; cycle 1;
  [ repeat
      match goal with
      | |- derivable_pt_lim (fct_cte _) _ _ => apply derivable_pt_lim_const
      | |- derivable_pt_lim id _ _ => apply derivable_pt_lim_id
      | |- derivable_pt_lim (_ * _)%F _ _ => apply derivable_pt_lim_mult
      | |- derivable_pt_lim (_ + _)%F _ _ => apply derivable_pt_lim_plus
      | |- derivable_pt_lim (_ - _)%F _ _ => apply derivable_pt_lim_minus
      end
  | unfold mult_fct, plus_fct, minus_fct, fct_cte, id; ring ].

Lemma cubicStep_derivative (t : R) :
  derivable_pt_lim (cubicStep (A := R_arith)) t (6 * t * (1 - t)).
Proof.
  change (cubicStep (A := R_arith))
    with (((fct_cte (- (2)) * id + fct_cte 3) * id * id)%F).
  derive_polynomial.
Qed.

Lemma quinticStep_derivative (t : R) :
  derivable_pt_lim (quinticStep (A := R_arith)) t
    (30 * (t * t) * ((1 - t) * (1 - t))).
Proof.
  change (quinticStep (A := R_arith))
    with ((((fct_cte 6 * id - fct_cte 15) * id + fct_cte 10)
           * id * id * id)%F).
  derive_polynomial.
Qed.

Lemma quinticStep_second_derivative (t : R) :
  derivable_pt_lim (fun u => 30 * (u * u) * ((1 - u) * (1 - u))) t
    (60 * t * (1 - t) * (1 - 2 * t)).
Proof.
  change (fun u => 30 * (u * u) * ((1 - u) * (1 - u)))
    with ((fct_cte 30 * (id * id)
           * ((fct_cte 1 - id) * (fct_cte 1 - id)))%F).
  derive_polynomial.
Qed.

(** The slopes that the header announces: the derivative of [cubicStep]
    at [t] is [6 t (1 - t)], that of [quinticStep] is [30 t^2 (1 - t)^2]
    and the derivative of the latter is [60 t (1 - t) (1 - 2 t)]; hence
    the first derivative of both, and the second derivative of
    [quinticStep], are zero at [0] and at [1]. *)
Theorem steps_R_derivatives :
  (forall t : R,
      derivable_pt_lim (cubicStep (A := R_arith)) t (6 * t * (1 - t)) /\
      derivable_pt_lim (quinticStep (A := R_arith)) t
        (30 * (t * t) * ((1 - t) * (1 - t))) /\
      derivable_pt_lim (fun u => 30 * (u * u) * ((1 - u) * (1 - u))) t
        (60 * t * (1 - t) * (1 - 2 * t))) /\
  (derivable_pt_lim (cubicStep (A := R_arith)) 0 0 /\
   derivable_pt_lim (cubicStep (A := R_arith)) 1 0) /\
  (derivable_pt_lim (quinticStep (A := R_arith)) 0 0 /\
   derivable_pt_lim (quinticStep (A := R_arith)) 1 0) /\
  (derivable_pt_lim (fun u => 30 * (u * u) * ((1 - u) * (1 - u))) 0 0 /\
   derivable_pt_lim (fun u => 30 * (u * u) * ((1 - u) * (1 - u))) 1 0).
Proof.
  split; [|split; [|split]].
  - intros t. auto using cubicStep_derivative, quinticStep_derivative,
      quinticStep_second_derivative.
  - split; eapply derivable_pt_lim_eq;
      try apply cubicStep_derivative; ring.
  - split; eapply derivable_pt_lim_eq;
      try apply quinticStep_derivative; ring.
  - split; eapply derivable_pt_lim_eq;
      try apply quinticStep_second_derivative; ring.
Qed.

End StepsOverReals.

Section MonotoneSteps.
Local Open Scope R_scope.

Lemma cubicStep_derivable : derivable (cubicStep (A := R_arith)).
Proof.
  intros t. exists (6 * t * (1 - t)). apply cubicStep_derivative.
Defined.

Lemma quinticStep_derivable : derivable (quinticStep (A := R_arith)).
Proof.
  intros t. exists (30 * (t * t) * ((1 - t) * (1 - t))).
  apply quinticStep_derivative.
Defined.

(** In exact arithmetic [quinticStep] never decreases, on the whole
    line, and [cubicStep] never decreases on the unit interval; outside
    it [cubicStep] does decrease. *)
Theorem steps_R_monotone :
  (forall s t : R,
      s <= t -> quinticStep (A := R_arith) s <= quinticStep (A := R_arith) t) /\
  (forall s t : R,
      0 <= s -> s <= t -> t <= 1 ->
      cubicStep (A := R_arith) s <= cubicStep (A := R_arith) t) /\
  (forall s t : R,
      1 <= s -> s < t ->
      cubicStep (A := R_arith) t < cubicStep (A := R_arith) s).
Proof.
  split; [|split].
  - intros s t Hst.
    apply (nonneg_derivative_1 _ quinticStep_derivable); [|exact Hst].
    intros x. cbn [derive_pt quinticStep_derivable proj1_sig].
    pose proof (Rle_0_sqr x) as Hx. pose proof (Rle_0_sqr (1 - x)) as Hy.
    unfold Rsqr in Hx, Hy.
    apply Rmult_le_pos; [|exact Hy]. lra.
  - intros s t H0 Hst H1.
    destruct (Req_dec s t) as [->|Hne]; [lra|].
    apply (derive_increasing_interv_var 0 1 _ cubicStep_derivable);
      try lra.
    intros x [Hx0 Hx1]. cbn [derive_pt cubicStep_derivable proj1_sig].
    apply Rmult_le_pos; nra.
  - intros s t H1 Hst. rewrite !cubicStep_R.
    assert (Hd : (3 - 2 * s) * s * s - (3 - 2 * t) * t * t
                 = (t - s) * (2 * (t * t + t * s + s * s) - 3 * (t + s)))
      by ring.
    assert (Hpos : 0 < 2 * (t * t + t * s + s * s) - 3 * (t + s)) by nra.
    assert (0 < (t - s) * (2 * (t * t + t * s + s * s) - 3 * (t + s)))
      by (apply Rmult_lt_0_compat; lra).
    lra.
Qed.

Lemma steps_R_monotone_witness :
  quinticStep (A := R_arith) (1 / 4) <= quinticStep (A := R_arith) (1 / 2) /\
  cubicStep (A := R_arith) (1 / 4) <= cubicStep (A := R_arith) (1 / 2) /\
  cubicStep (A := R_arith) 2 < cubicStep (A := R_arith) 1.
Proof.
  split; [apply (proj1 steps_R_monotone); lra|].
  split; [apply (proj1 (proj2 steps_R_monotone)); lra|].
  apply (proj2 (proj2 steps_R_monotone)); lra.
Defined.

(** [cos] is at [-1] at [PI] and above it by at most half the square of
    the distance nearby. *)
Lemma cos_near_PI_le (x d : R) :
  Rabs (x - PI) <= d -> d * d <= 1 -> -1 <= cos x <= -1 + d * d / 2.
Proof.
  intros Hd Hd1.
  destruct (Req_dec x PI) as [->|Hne].
  - rewrite cos_PI. nra.
  - destruct (cos_near_PI x d) as [H1 H2]; try assumption; [|lra].
    split; [|exact Hd]. apply Rabs_pos_lt. lra.
Qed.

(** With the exact cosine, [cosineStep] takes its values in the unit
    interval for every argument, is an even function and is [0] at [0];
    at [1] it is within [10^-34] of [1]: the literal of [pi<T>()] is not
    the number [PI]. *)
Theorem cosineStep_R_range (t : R) :
  0 <= cosineStep (A := R_arith) cos t <= 1 /\
  cosineStep (A := R_arith) cos (- t) = cosineStep (A := R_arith) cos t /\
  cosineStep (A := R_arith) cos 0 = 0 /\
  1 - / 10 ^ 34 <= cosineStep (A := R_arith) cos 1 <= 1.
Proof.
  rewrite !cosineStep_R.
  pose proof (COS_bound (pi (A := R_arith) * t)) as [Hlo Hhi].
  split; [lra|]. split; [|split].
  - replace (pi (A := R_arith) * - t) with (- (pi (A := R_arith) * t))
      by ring.
    rewrite cos_neg. reflexivity.
  - rewrite Rmult_0_r, cos_0. lra.
  - rewrite Rmult_1_r.
    pose proof PI_17_digits as [Plo Phi].
    assert (Hpi : 314159265358979323 / 100000000000000000
                  <= pi (A := R_arith)
                  <= 314159265358979324 / 100000000000000000).
    { unfold pi. cbn [cast R_arith].
      change (IZR (10 ^ Z.of_nat 45))
        with 1000000000000000000000000000000000000000000000.
      split; lra. }
    destruct (cos_near_PI_le (pi (A := R_arith)) (1 / 100000000000000000))
      as [H1 H2].
    + apply Rabs_le. lra.
    + lra.
    + assert (E : / 10 ^ 34 = 1 / 10000000000000000000000000000000000)
        by (simpl; lra).
      rewrite E. lra.
Qed.

(** In exact arithmetic [lerp(a, b, t)] is [a + t (b - a)] and reverses
    with [t -> 1 - t], for every [t]; for [t] in the unit interval it
    lies between [a] and [b], and so does the interpolation smoothed by
    a step. *)
Theorem lerp_R_between (a b t : R) :
  lerp (A := R_arith) a b t = a + t * (b - a) /\
  lerp (A := R_arith) a b t = lerp (A := R_arith) b a (1 - t) /\
  (0 <= t <= 1 ->
   Rmin a b <= lerp (A := R_arith) a b t <= Rmax a b /\
   Rmin a b <= lerp (A := R_arith) a b (cubicStep (A := R_arith) t)
     <= Rmax a b /\
   Rmin a b <= lerp (A := R_arith) a b (quinticStep (A := R_arith) t)
     <= Rmax a b /\
   Rmin a b <= lerp (A := R_arith) a b (cosineStep (A := R_arith) cos t)
     <= Rmax a b).
Proof.
  split; [apply lerp_R|]. split; [rewrite !lerp_R; ring|].
  intros Ht.
  assert (Hbetween : forall u, 0 <= u <= 1 ->
            Rmin a b <= lerp (A := R_arith) a b u <= Rmax a b).
  { intros u [H0 H1]. rewrite lerp_R. unfold Rmin, Rmax.
    destruct (Rle_dec a b); split; nra. }
  destruct (steps_R_range t Ht) as [Hc Hq].
  assert (Hcos : 0 <= cosineStep (A := R_arith) cos t <= 1).
  { rewrite cosineStep_R.
    pose proof (COS_bound (pi (A := R_arith) * t)). lra. }
  repeat split; apply Hbetween; assumption.
Qed.

Lemma lerp_R_between_witness :
  0 <= 1 / 4 <= 1 /\
  Rmin 2 6 <= lerp (A := R_arith) 2 6 (1 / 4) <= Rmax 2 6.
Proof.
  split; [lra|].
  apply (proj2 (proj2 (lerp_R_between 2 6 (1 / 4)))). lra.
Defined.

End MonotoneSteps.

(** ** The angle conversions beyond exact arithmetic *)

Section AngleParity.
Variables prec emax : Z.
Local Abbreviation F := (IEEE prec emax).

(** The two angle conversions are odd functions on every IEEE format:
    the sign of the angle goes through the roundings unchanged. *)
Theorem angle_conversions_odd (x : spec_float) :
  degreesToRadians (A := F) (neg (Arith := F) x)
  = neg (Arith := F) (degreesToRadians (A := F) x) /\
  radiansToDegrees (A := F) (neg (Arith := F) x)
  = neg (Arith := F) (radiansToDegrees (A := F) x).
Proof.
  unfold degreesToRadians, radiansToDegrees. ieee_ops.
  rewrite !SFmul_opp_l, !SFdiv_opp_l. split; reflexivity.
Qed.

End AngleParity.

(** Instantiated at an integer type, [pi<T>()] is [3]:
    [degreesToRadians] is the quotient by [60] and [radiansToDegrees]
    the product by [60], so that converting radians to degrees and back
    gives the radians again, and converting degrees to radians and back
    gives the multiple of [60] next to the degrees towards zero. *)
Theorem angle_conversions_Z (x : Z) :
  pi (A := Z_arith) = 3 /\
  degreesToRadians (A := Z_arith) x = Z.quot x 60 /\
  radiansToDegrees (A := Z_arith) x = 60 * x /\
  degreesToRadians (A := Z_arith) (radiansToDegrees (A := Z_arith) x) = x /\
  radiansToDegrees (A := Z_arith) (degreesToRadians (A := Z_arith) x)
  = x - Z.rem x 60.
Proof.
  assert (Hpi : pi (A := Z_arith) = 3) by (vm_compute; reflexivity).
  assert (Hd : forall z, degreesToRadians (A := Z_arith) z = Z.quot z 60).
  { intros z. unfold degreesToRadians. rewrite Hpi. unfold T_.
    cbn [cast mul div Z_arith literal_num literal_den].
    change (Z.quot 180 1) with (3 * 60).
    rewrite (Z.mul_comm 3 60), Z.quot_mul_cancel_r by lia. reflexivity. }
  assert (Hr : forall z, radiansToDegrees (A := Z_arith) z = 60 * z).
  { intros z. unfold radiansToDegrees. rewrite Hpi. unfold T_.
    cbn [cast mul div Z_arith literal_num literal_den].
    change (Z.quot 180 1) with (60 * 3).
    rewrite Z.mul_assoc, Z.quot_mul by lia. lia. }
  rewrite !Hd, !Hr. repeat split; try assumption.
  - rewrite Z.mul_comm. apply Z.quot_mul. lia.
  - pose proof (Z.quot_rem x 60 ltac:(lia)). lia.
Qed.

(** ** Tolerances that are not positive *)

Section SignBit.
Variables prec emax : Z.
Local Abbreviation F := (IEEE prec emax).
Local Abbreviation L := (IEEE_limits prec emax).

Lemma binary_round_aux_sign_bit (s : bool) (m e : Z) (l : location) :
  sign_bit (binary_round_aux prec emax s m e l) = s \/
  binary_round_aux prec emax s m e l = S754_nan.
Proof.
  unfold binary_round_aux.
  destruct (shr_fexp prec emax m e l) as [mrs' e'].
  destruct (shr_fexp prec emax _ e' loc_Exact) as [mrs'' e''].
  destruct (shr_m mrs'') as [|p|p]; auto.
  destruct (e'' <=? emax - prec); auto.
Qed.

Lemma binary_normalize_sign_bit (m e : Z) :
  0 <= m -> sign_bit (binary_normalize prec emax m e false) = false.
Proof.
  intros Hm. destruct m as [|p|p]; [reflexivity| |lia].
  cbn [binary_normalize]. unfold binary_round.
  destruct (shl_align _ _ _) as [mz ez].
  destruct (binary_round_aux_sign_bit false (Zpos mz) ez loc_Exact)
    as [H|H]; rewrite H; reflexivity.
Qed.

Lemma SFabs_sign_bit (x : spec_float) : sign_bit (SFabs x) = false.
Proof. destruct x; reflexivity. Qed.

Lemma SFadd_abs_sign_bit (a b : spec_float) :
  sign_bit (SFadd prec emax (SFabs a) (SFabs b)) = false.
Proof.
  destruct a as [sa|sa| |sa ma ea], b as [sb|sb| |sb mb eb];
    try reflexivity.
  cbn [SFabs SFadd]. apply binary_normalize_sign_bit.
  cbn [cond_Zopp]. destruct (shl_align ma ea (Z.min ea eb)) as [m1 e1].
  destruct (shl_align mb eb (Z.min ea eb)) as [m2 e2]. cbn [fst]. lia.
Qed.

Lemma SFdiv_sign_bit (x y : spec_float) :
  sign_bit x = false -> sign_bit y = false ->
  sign_bit (SFdiv prec emax x y) = false.
Proof.
  destruct x as [sx|sx| |sx mx ex], y as [sy|sy| |sy my ey];
    cbn [sign_bit]; intros Hx Hy; try subst sx; try subst sy;
    try reflexivity.
  cbn [SFdiv xorb].
  destruct (SFdiv_core_binary prec emax (Zpos mx) ex (Zpos my) ey)
    as [[mz ez] lz].
  destruct (binary_round_aux_sign_bit false mz ez lz) as [H|H];
    rewrite H; reflexivity.
Qed.

(** A value whose sign bit is clear is below nothing that is not above
    zero. *)
Lemma SFltb_sign_bit (x y : spec_float) :
  sign_bit x = false -> SFltb (S754_zero false) y = false ->
  SFltb x y = false.
Proof.
  destruct x as [sx|sx| |sx mx ex], y as [sy|sy| |sy my ey];
    cbn [sign_bit]; intros Hx Hy; try subst sx;
    try reflexivity; try (destruct sy; try discriminate Hy; reflexivity).
Qed.

Lemma SFmul_denorm_min_not_positive (epsilon : spec_float) :
  SFltb (S754_zero false) epsilon = false ->
  SFltb (S754_zero false)
    (SFmul prec emax epsilon (S754_finite false 1 (emin prec emax))) = false.
Proof.
  destruct epsilon as [s|s| |s m e]; try reflexivity;
    destruct s; try discriminate; try reflexivity.
  intros _. cbn [SFmul xorb].
  destruct (binary_round_aux_sign_bit true (Zpos (m * 1)) (e + emin prec emax)
              loc_Exact) as [H|H].
  - destruct (binary_round_aux _ _ _ _ _ _) as [s'|s'| |s' m' e'];
      cbn [sign_bit] in H; try discriminate H; try subst s'; reflexivity.
  - rewrite H. reflexivity.
Qed.

(** With a tolerance that is not above zero (zero, negative or NaN)
    [almostEquals] is the exact comparison [==]. *)
Theorem almostEquals_nonpositive_epsilon (a b epsilon : spec_float) :
  ltb (Arith := F) (T_ (A := F) 0) epsilon = false ->
  almostEquals (A := F) (L := L) a b epsilon = eqb (Arith := F) a b.
Proof.
  rewrite IEEE_zero. cbn [ltb IEEE]. intros He.
  unfold almostEquals. ieee_ops.
  destruct (SFeqb a b); [reflexivity|].
  destruct (_ || _).
  - apply SFltb_sign_bit; [apply SFabs_sign_bit|].
    apply SFmul_denorm_min_not_positive, He.
  - apply SFltb_sign_bit; [|exact He].
    apply SFdiv_sign_bit; [apply SFabs_sign_bit|].
    match goal with
    | |- sign_bit (if ?c then _ else _) = false => destruct c
    end; [apply SFadd_abs_sign_bit|reflexivity].
Qed.

(** [absdiff] of two values of the format is never below zero. *)
Theorem absdiff_IEEE_not_negative (a b : spec_float) :
  valid_binary prec emax a = true -> valid_binary prec emax b = true ->
  ltb (Arith := F) (absdiff (A := F) a b) (T_ (A := F) 0) = false.
Proof.
  intros Va Vb. rewrite IEEE_zero. cbn [ltb IEEE].
  destruct (absdiff_IEEE prec emax a b Va Vb) as [[H|[H1 H2]] _].
  - rewrite H. destruct (SFsub prec emax a b); reflexivity.
  - destruct (absdiff (A := F) a b) as [s|s| |s m e];
      try discriminate H1. destruct s; reflexivity.
Qed.

End SignBit.

Lemma almostEquals_nonpositive_epsilon_witness :
  almostEquals (A := binary32) (L := binary32_limits)
    (S754_finite false 8388608 (-23)) (S754_finite false 8388609 (-23))
    (S754_zero false)
  = eqb (Arith := binary32)
      (S754_finite false 8388608 (-23)) (S754_finite false 8388609 (-23)).
Proof. apply (almostEquals_nonpositive_epsilon 24 128). reflexivity. Defined.

Lemma absdiff_IEEE_not_negative_witness :
  ltb (Arith := binary32)
    (absdiff (A := binary32) (S754_finite false 8388608 (-23))
       (S754_finite false 12582912 (-22)))
    (T_ (A := binary32) 0) = false.
Proof.
  apply (absdiff_IEEE_not_negative 24 128); reflexivity.
Defined.

(** On integers [absdiff] is a distance: it is zero exactly on equal
    arguments, satisfies the triangle inequality and does not change when
    both arguments are shifted or negated. *)
Theorem absdiff_Z_distance (a b c : Z) :
  0 <= absdiff (A := Z_arith) a b /\
  (absdiff (A := Z_arith) a b = 0 <-> a = b) /\
  absdiff (A := Z_arith) a c
  <= absdiff (A := Z_arith) a b + absdiff (A := Z_arith) b c /\
  absdiff (A := Z_arith) (a + c) (b + c) = absdiff (A := Z_arith) a b /\
  absdiff (A := Z_arith) (- a) (- b) = absdiff (A := Z_arith) a b.
Proof.
  destruct (absdiff_Z a b) as [-> _]. destruct (absdiff_Z a c) as [-> _].
  destruct (absdiff_Z b c) as [-> _].
  destruct (absdiff_Z (a + c) (b + c)) as [-> _].
  destruct (absdiff_Z (- a) (- b)) as [-> _].
  repeat split; lia.
Qed.

(** ** Unsigned instantiations *)

(** On a [w]-bit unsigned type [lerp], [square] and [cube] return the
    result of the integers reduced modulo [2^w], for every [t] and
    whatever wraps on the way: [lerp(a, b, t)] is [a + t (b - a)] modulo
    [2^w] although [1 - t] wraps for [t > 1]. *)
Theorem uint_results_wrap (w a b t : Z) :
  lerp (A := uint_arith w) a b t = wrap w (a + t * (b - a)) /\
  lerp (A := uint_arith w) a b t = wrap w (lerp (A := Z_arith) a b t) /\
  square (A := uint_arith w) a = wrap w (square (A := Z_arith) a) /\
  cube (A := uint_arith w) a = wrap w (cube (A := Z_arith) a).
Proof.
  destruct (lerp_Z a b t) as (_ & _ & ->).
  unfold lerp, square, cube, T_.
  cbn [cast add sub mul uint_arith Z_arith literal_num literal_den].
  rewrite !Z.quot_1_r. unfold wrap.
  pose proof (eqm_setoid (2 ^ w)) as Hequiv.
  pose proof (Zplus_eqm (2 ^ w)) as Hadd.
  pose proof (Zminus_eqm (2 ^ w)) as Hsub.
  pose proof (Zmult_eqm (2 ^ w)) as Hmul.
  assert (E : forall x, eqm (2 ^ w) (x mod 2 ^ w) x) by apply Zmod_eqm.
  repeat split;
    match goal with
    | |- ?X mod ?m = ?Y mod ?m => change (eqm m X Y)
    end;
    repeat (rewrite_strat (outermost E));
    match goal with
    | |- eqm _ ?X ?Y => replace X with Y by ring
    end; reflexivity.
Qed.

(** * Further properties of [SystemInfo] *)

Lemma std_string_no_null (p : list ascii) : no_null (std_string p) = true.
Proof.
  induction p as [|c q IH]; [reflexivity|]. cbn [std_string].
  destruct (Ascii.eqb c zero) eqn:E; [reflexivity|].
  cbn [no_null]. rewrite E, IH. reflexivity.
Qed.

Lemma std_string_prefix (p : list ascii) :
  exists rest, p = (list_ascii_of_string (std_string p) ++ rest)%list.
Proof.
  induction p as [|c q [rest IH]]; [exists nil; reflexivity|].
  cbn [std_string]. destruct (Ascii.eqb c zero).
  - exists (c :: q). reflexivity.
  - exists rest. cbn [list_ascii_of_string app]. rewrite <- IH. reflexivity.
Qed.

Lemma std_string_stable (p : list ascii) :
  std_string (list_ascii_of_string (std_string p)) = std_string p.
Proof.
  induction p as [|c q IH]; [reflexivity|]. cbn [std_string].
  destruct (Ascii.eqb c zero) eqn:E; [reflexivity|].
  cbn [list_ascii_of_string std_string]. rewrite E, IH. reflexivity.
Qed.

Section SystemInfoInContext.
Import ITreeNotations.
Local Open Scope itree_scope.
Context {S : Type}.
Variable impl : SDL_impl S.

(** Whatever SDL answers, the name that [getPlatformName] returns has no
    null character, is a prefix of the characters SDL answered, and is
    left unchanged by a second conversion to [std::string]. *)
Theorem getPlatformName_answer (s : S) :
  exists name : string,
    run impl SystemInfo.getPlatformName s
    ≈ Ret (fst (impl _ SDL_GetPlatform s), name) /\
    no_null name = true /\
    (exists rest,
        snd (impl _ SDL_GetPlatform s)
        = (list_ascii_of_string name ++ rest)%list) /\
    std_string (list_ascii_of_string name) = name.
Proof.
  exists (std_string (snd (impl _ SDL_GetPlatform s))).
  split; [apply run_getPlatformName|].
  split; [apply std_string_no_null|].
  split; [apply std_string_prefix | apply std_string_stable].
Qed.

Lemma run_bind {R U : Type} (t : itree SDL R) (k : R -> itree SDL U)
    (s s' : S) (r : R) :
  run impl t s ≈ Ret (s', r) ->
  run impl (x <- t ;; k x) s ≈ run impl (k r) s'.
Proof.
  intros H. unfold run in *. rewrite interp_state_bind, H, bind_ret_l.
  reflexivity.
Qed.

(** Inside any program, a call of a member of [SystemInfo] is the call
    of its SDL function: the rest of the program runs on the answer of
    SDL, in the state SDL left. *)
Theorem SystemInfo_in_context
    (U : Type) (kn : string -> itree SDL U) (k : Z -> itree SDL U) (s : S) :
  run impl (x <- SystemInfo.getPlatformName ;; kn x) s
  ≈ run impl (kn (std_string (snd (impl _ SDL_GetPlatform s))))
      (fst (impl _ SDL_GetPlatform s)) /\
  run impl (x <- SystemInfo.getCpuCacheLineSize ;; k x) s
  ≈ run impl (k (snd (impl _ SDL_GetCPUCacheLineSize s)))
      (fst (impl _ SDL_GetCPUCacheLineSize s)) /\
  run impl (x <- SystemInfo.getCpuCount ;; k x) s
  ≈ run impl (k (snd (impl _ SDL_GetCPUCount s)))
      (fst (impl _ SDL_GetCPUCount s)) /\
  run impl (x <- SystemInfo.getSystemRamSize ;; k x) s
  ≈ run impl (k (snd (impl _ SDL_GetSystemRAM s)))
      (fst (impl _ SDL_GetSystemRAM s)).
Proof.
  split; [apply run_bind, run_getPlatformName|].
  repeat split; apply run_bind;
    unfold SystemInfo.getCpuCacheLineSize, SystemInfo.getCpuCount,
      SystemInfo.getSystemRamSize;
    rewrite run_int_member;
    match goal with
    | |- context [impl ?R ?e ?st] => destruct (impl R e st)
    end; reflexivity.
Qed.

End SystemInfoInContext.
